(** * rtmp_exporter: the rtmpstats decoding and mutation pipeline

    A shallow embedding of package [rtmpstats] (the scalar adapters [Time],
    [Duration] and [Boolean], the typed model of [stats.go] with its
    [UnmarshalXML] overrides, the mutators of [mutations.go]) and of the
    publisher selection of [Exporter.Collect], together with the properties
    the specification states of them, each settled against the code.

    Conventions.
    - Go's [int] is the 64-bit two's complement integer of the platforms the
      exporter is built for; [time.Duration] is an [int64] count of
      nanoseconds.  Both are [Z] with the wrap-around written out.
    - A slice is the list of its elements (the model is the ownership tree
      of the specification: no two slices of a [Stats] share storage).
    - [encoding/xml] is modelled on the element tree of a well-formed
      document: what [Decoder.DecodeElement] does with a struct, a scalar
      and an [Unmarshaler], and the exported option fields of the decoder
      itself. *)

From Stdlib Require Import ZArith Ascii String Lia.
From stdpp Require Import gmap strings list fin_maps pretty.

Local Open Scope string_scope.
Local Open Scope list_scope.
Local Open Scope Z_scope.
Set Warnings "-register-all,-clear-no-such-hyp".

(** ** Machine integers *)

Definition wrap64 (z : Z) : Z := (z + 2 ^ 63) mod 2 ^ 64 - 2 ^ 63.

Definition MinInt64 : Z := - 2 ^ 63.
Definition MaxInt64 : Z := 2 ^ 63 - 1.

Definition inInt64 (z : Z) : Prop := MinInt64 <= z <= MaxInt64.

(** [a + b], [a * b] and [a / b] on [int], [int64] and [time.Duration]. *)
Definition add64 (a b : Z) : Z := wrap64 (a + b).
Definition mul64 (a b : Z) : Z := wrap64 (a * b).
Definition quot64 (a b : Z) : Z := wrap64 (Z.quot a b).

(** [float64] is carried as its IEEE-754 bit pattern; the model never
    computes with it. *)
Definition float64 : Type := Z.

(** ** package time *)

Definition Nanosecond : Z := 1.
Definition Microsecond : Z := 1000 * Nanosecond.
Definition Millisecond : Z := 1000 * Microsecond.
Definition Second : Z := 1000 * Millisecond.
Definition Minute : Z := 60 * Second.

(** A [time.Time], as seconds since the zero instant (January 1, year 1,
    00:00:00 UTC), so that the zero value of the type is [0]. *)
Record time_Time : Type := mkTime { absSec : Z }.

(** ** Errors *)

Inductive error : Type :=
  | ErrSyntax (fn : string) (input : string)   (* strconv: invalid syntax *)
  | ErrRange (fn : string) (input : string)    (* strconv: value out of range *)
  | ErrTime (input : string)                   (* time.Parse failed *)
  | ErrUnknownType (ty : string)               (* xml: "unknown type " + ty *)
  | Errorf (msg : string).                     (* fmt.Errorf *)

Inductive result (A : Type) : Type :=
  | Ok (a : A)
  | Err (e : error).
Arguments Ok {A} a.
Arguments Err {A} e.

(** The two parsers of the Go library the model does not spell out:
    [strconv.ParseFloat(s, 64)] and
    [time.Parse("Jan _2 2006 15:04:05", s)]. *)
Class Library : Type := {
  ParseFloat : string -> option float64;
  time_Parse : string -> option time_Time
}.

(** ** package strings, package strconv *)

Definition isSpace (a : ascii) : bool :=
  let n := nat_of_ascii a in
  ((9 <=? n) && (n <=? 13) || (n =? 32))%nat.

Fixpoint TrimLeft (s : string) : string :=
  match s with
  | String a s' => if isSpace a then TrimLeft s' else s
  | EmptyString => EmptyString
  end.

Fixpoint TrimRight (s : string) : string :=
  match s with
  | String a s' =>
      match TrimRight s' with
      | EmptyString => if isSpace a then EmptyString else String a EmptyString
      | t => String a t
      end
  | EmptyString => EmptyString
  end.

(** [strings.TrimSpace], on the ASCII white space. *)
Definition TrimSpace (s : string) : string := TrimRight (TrimLeft s).

Definition digit (a : ascii) : option Z :=
  let n := Z.of_nat (nat_of_ascii a) in
  if (48 <=? n) && (n <=? 57) then Some (n - 48) else None.

Fixpoint digits (s : string) (acc : Z) : option Z :=
  match s with
  | EmptyString => Some acc
  | String a s' =>
      match digit a with
      | Some k => digits s' (10 * acc + k)
      | None => None
      end
  end.

(** [strconv.ParseInt(s, 10, 64)]. *)
Definition ParseInt (s : string) : result Z :=
  let '(neg, body) :=
    match s with
    | String "+" s' => (false, s')
    | String "-" s' => (true, s')
    | _ => (false, s)
    end in
  match body with
  | EmptyString => Err (ErrSyntax "ParseInt" s)
  | _ =>
      match digits body 0 with
      | None => Err (ErrSyntax "ParseInt" s)
      | Some un =>
          if neg then
            if un <=? 2 ^ 63 then Ok (- un) else Err (ErrRange "ParseInt" s)
          else
            if un <? 2 ^ 63 then Ok un else Err (ErrRange "ParseInt" s)
      end
  end.

(** [strconv.ParseBool]. *)
Definition ParseBool (s : string) : result bool :=
  if bool_decide (s ∈ ["1"; "t"; "T"; "TRUE"; "true"; "True"]) then Ok true
  else if bool_decide (s ∈ ["0"; "f"; "F"; "FALSE"; "false"; "False"]) then Ok false
  else Err (ErrSyntax "ParseBool" s).

(** ** package encoding/xml *)

(** The element tree of a document, as a strict decoder without auto-closed
    elements reads it (the decoder [NewDecoder] returns).  Comments,
    processing instructions and attributes are dropped: the decoding of the
    structs below ignores them. *)
Inductive Node : Type :=
  | CharData (text : string)
  | Element (local : string) (body : list Node).

(** The exported fields of [xml.Decoder] that a decoded element can reach
    ([Entity] and [CharsetReader] are a map and a func: no element decodes
    into them).  They are the options of the tokenizer; the model threads
    them through the decoding and does not re-read a document under changed
    options. *)
Record Decoder : Type := mkDecoder {
  Strict : bool;
  AutoClose : list string;
  DefaultSpace : string
}.

(** [xml.NewDecoder]. *)
Definition NewDecoder : Decoder :=
  {| Strict := true; AutoClose := []; DefaultSpace := "" |}.

(** A decoding step: it runs on the decoder, and either fails or returns a
    value and the decoder it leaves. *)
Definition M (A : Type) : Type := Decoder -> result (A * Decoder).

Definition ret {A} (a : A) : M A := fun d => Ok (a, d).

Definition bind {A B} (m : M A) (k : A -> M B) : M B :=
  fun d => match m d with
           | Ok (a, d') => k a d'
           | Err e => Err e
           end.

Definition fail {A} (e : error) : M A := fun _ => Err e.

Definition lift {A} (r : result A) : M A :=
  fun d => match r with Ok a => Ok (a, d) | Err e => Err e end.

Definition modify (f : Decoder -> Decoder) : M unit := fun d => Ok (tt, f d).

Notation "'do' x <- m ; k" := (bind m (fun x => k))
  (at level 10, x name, m at level 100, k at level 200).
Notation "'do' ' pat <- m ; k" := (bind m (fun x => match x with pat => k end))
  (at level 10, pat pattern, m at level 100, k at level 200).

(** A [for] loop over tokens that threads the value under construction. *)
Definition foldM {A T} (f : A -> T -> M T) : list A -> T -> M T :=
  fix go (l : list A) (s : T) : M T :=
    match l with
    | [] => ret s
    | a :: l' => do s' <- f a s ; go l' s'
    end.

(** The character data directly inside an element: what [unmarshal] collects
    for a scalar (nested elements are skipped). *)
Fixpoint chardata (body : list Node) : string :=
  match body with
  | [] => ""
  | CharData t :: rest => String.append t (chardata rest)
  | Element _ _ :: rest => chardata rest
  end.

(** [copyValue] at the kinds the structs use. *)
Definition copyString (src : string) : result string := Ok src.

Definition copyInt (src : string) : result Z :=
  match src with
  | EmptyString => Ok 0
  | _ => ParseInt (TrimSpace src)
  end.

Definition copyBool (src : string) : result bool :=
  match src with
  | EmptyString => Ok false
  | _ => ParseBool (TrimSpace src)
  end.

Definition copyFloat `{Library} (src : string) : result float64 :=
  match src with
  | EmptyString => Ok 0
  | _ => match ParseFloat (TrimSpace src) with
         | Some f => Ok f
         | None => Err (ErrSyntax "ParseFloat" (TrimSpace src))
         end
  end.

(** One entry of a struct's [typeInfo]: the element path of the field
    ([a>b>c] is parents [a; b] and name [c]) and what decoding an element
    into the field does to the struct. *)
Record fieldInfo (T : Type) : Type := mkField {
  parents : list string;
  name : string;
  unmarshalField : list Node -> T -> M T
}.
Arguments mkField {T}.
Arguments parents {T}.
Arguments name {T}.
Arguments unmarshalField {T}.

Inductive pathMatch (T : Type) : Type :=
  | Perfect (f : fieldInfo T)
  | Prefix (ps : list string)
  | NoMatch.
Arguments Perfect {T}.
Arguments Prefix {T}.
Arguments NoMatch {T}.

(** The scan of [unmarshalPath] over the fields: the first field whose path
    extends [ps] and either is the element ([Perfect]) or has it as its next
    parent ([Prefix]). *)
Fixpoint scanFields {T} (fields : list (fieldInfo T)) (ps : list string)
    (local : string) : pathMatch T :=
  match fields with
  | [] => NoMatch
  | f :: rest =>
      if bool_decide (length (parents f) < length ps)%nat
         || negb (bool_decide (take (length ps) (parents f) = ps))
      then scanFields rest ps local
      else if bool_decide (length (parents f) = length ps)
              && bool_decide (name f = local)
      then Perfect f
      else if bool_decide (length ps < length (parents f))%nat
              && bool_decide (parents f !! length ps = Some local)
      then Prefix (take (Datatypes.S (length ps)) (parents f))
      else scanFields rest ps local
  end.

(** [Decoder.unmarshalPath]: the boolean is [consumed]. An element that is
    not consumed is skipped by the caller. *)
Fixpoint unmarshalPath {T} (fields : list (fieldInfo T)) (ps : list string)
    (t : Node) (sv : T) {struct t} : M (bool * T) :=
  match t with
  | CharData _ => ret (false, sv)
  | Element local body =>
      match scanFields fields ps local with
      | Perfect f => do sv' <- unmarshalField f body sv ; ret (true, sv')
      | Prefix ps' =>
          do sv' <- foldM (fun tok sv0 =>
                          match tok with
                          | Element _ _ =>
                              do '(_, sv1) <- unmarshalPath fields ps' tok sv0 ;
                              ret sv1
                          | CharData _ => ret sv0
                          end) body sv ;
          ret (true, sv')
      | NoMatch => ret (false, sv)
      end
  end.

(** [Decoder.unmarshal] at a struct with element fields only: the loop over
    the tokens up to the end element. *)
Definition decodeStruct {T} (fields : list (fieldInfo T)) (body : list Node)
    (sv : T) : M T :=
  foldM (fun tok sv0 =>
           match tok with
           | Element _ _ =>
               do '(_, sv1) <- unmarshalPath fields [] tok sv0 ; ret sv1
           | CharData _ => ret sv0
           end) body sv.

(** Fields by kind. *)
Definition stringField {T} (ps : list string) (n : string)
    (set : string -> T -> T) : fieldInfo T :=
  mkField ps n (fun body sv => do v <- lift (copyString (chardata body)) ; ret (set v sv)).

Definition intField {T} (ps : list string) (n : string)
    (set : Z -> T -> T) : fieldInfo T :=
  mkField ps n (fun body sv => do v <- lift (copyInt (chardata body)) ; ret (set v sv)).

Definition floatField `{Library} {T} (ps : list string) (n : string)
    (set : float64 -> T -> T) : fieldInfo T :=
  mkField ps n (fun body sv => do v <- lift (copyFloat (chardata body)) ; ret (set v sv)).

(** A field whose type implements [xml.Unmarshaler]. *)
Definition unmarshalerField {T A} (ps : list string) (n : string)
    (UnmarshalXML : list Node -> M A) (set : A -> T -> T) : fieldInfo T :=
  mkField ps n (fun body sv => do v <- UnmarshalXML body ; ret (set v sv)).

(** A slice field: the slice grows by one element, decoded in place. *)
Definition sliceField {T A} (ps : list string) (n : string)
    (decodeElem : list Node -> M A) (get : T -> list A)
    (set : list A -> T -> T) : fieldInfo T :=
  mkField ps n (fun body sv => do v <- decodeElem body ; ret (set (get sv ++ [v]) sv)).

(** ** The scalar adapters *)

(** [Time.UnmarshalXML]. *)
Definition Time_UnmarshalXML `{Library} (body : list Node) : M time_Time :=
  do timeStr <- lift (copyString (chardata body)) ;
  match time_Parse timeStr with
  | Some parsedTime => ret parsedTime
  | None => fail (ErrTime timeStr)
  end.

(** [Duration.UnmarshalXML]: the element holds an [int] of milliseconds. *)
Definition Duration_UnmarshalXML (body : list Node) : M Z :=
  do ms <- lift (copyInt (chardata body)) ;
  ret (mul64 Millisecond ms).

(** What [dec.DecodeElement(&dec, &start)] decodes into: the decoder's own
    exported fields, in declaration order.  The struct under construction is
    the decoder that runs the decoding, hence the value threaded is [unit]
    and the fields are written through [modify]. *)
Definition set_Strict (v : bool) (d : Decoder) : Decoder :=
  mkDecoder v (AutoClose d) (DefaultSpace d).
Definition set_AutoClose (v : list string) (d : Decoder) : Decoder :=
  mkDecoder (Strict d) v (DefaultSpace d).
Definition set_DefaultSpace (v : string) (d : Decoder) : Decoder :=
  mkDecoder (Strict d) (AutoClose d) v.

Definition DecoderFields : list (fieldInfo unit) :=
  [ mkField [] "Strict" (fun body _ =>
      do v <- lift (copyBool (chardata body)) ; modify (set_Strict v));
    mkField [] "AutoClose" (fun body _ =>
      do v <- lift (copyString (chardata body)) ;
      modify (fun d => set_AutoClose (AutoClose d ++ [v]) d));
    mkField [] "Entity" (fun _ _ => fail (ErrUnknownType "map[string]string"));
    mkField [] "CharsetReader" (fun _ _ =>
      fail (ErrUnknownType "func(string, io.Reader) (io.Reader, error)"));
    mkField [] "DefaultSpace" (fun body _ =>
      do v <- lift (copyString (chardata body)) ; modify (set_DefaultSpace v)) ].

(** [Boolean.UnmarshalXML]: the receiver becomes [true], then the element is
    consumed by decoding it into [dec] itself. *)
Definition Boolean_UnmarshalXML (body : list Node) : M bool :=
  let b := true in
  do _ <- decodeStruct DecoderFields body tt ;
  ret b.

(** ** stats.go: the typed model *)

Module Client.

Record t : Type := mk {
  ID : string;
  Address : string;
  Uptime : Z;
  FlashVersion : string;
  PageURL : string;
  SWFURL : string;
  DroppedFrames : Z;
  AVSync : Z;
  Timestamp : Z;
  Active : bool;
  Publishing : bool;
  EntriesCount : Z
}.

Definition set_ID (v : string) (x : t) : t :=
  mk v (Address x) (Uptime x) (FlashVersion x) (PageURL x) (SWFURL x)
    (DroppedFrames x) (AVSync x) (Timestamp x) (Active x) (Publishing x)
    (EntriesCount x).
Definition set_Address (v : string) (x : t) : t :=
  mk (ID x) v (Uptime x) (FlashVersion x) (PageURL x) (SWFURL x)
    (DroppedFrames x) (AVSync x) (Timestamp x) (Active x) (Publishing x)
    (EntriesCount x).
Definition set_FlashVersion (v : string) (x : t) : t :=
  mk (ID x) (Address x) (Uptime x) v (PageURL x) (SWFURL x) (DroppedFrames x)
    (AVSync x) (Timestamp x) (Active x) (Publishing x) (EntriesCount x).
Definition set_PageURL (v : string) (x : t) : t :=
  mk (ID x) (Address x) (Uptime x) (FlashVersion x) v (SWFURL x)
    (DroppedFrames x) (AVSync x) (Timestamp x) (Active x) (Publishing x)
    (EntriesCount x).
Definition set_SWFURL (v : string) (x : t) : t :=
  mk (ID x) (Address x) (Uptime x) (FlashVersion x) (PageURL x) v
    (DroppedFrames x) (AVSync x) (Timestamp x) (Active x) (Publishing x)
    (EntriesCount x).
Definition set_DroppedFrames (v : Z) (x : t) : t :=
  mk (ID x) (Address x) (Uptime x) (FlashVersion x) (PageURL x) (SWFURL x) v
    (AVSync x) (Timestamp x) (Active x) (Publishing x) (EntriesCount x).
Definition set_AVSync (v : Z) (x : t) : t :=
  mk (ID x) (Address x) (Uptime x) (FlashVersion x) (PageURL x) (SWFURL x)
    (DroppedFrames x) v (Timestamp x) (Active x) (Publishing x)
    (EntriesCount x).

Definition zero : t := mk "" "" 0 "" "" "" 0 0 0 false false 0.

(** [Client.Add]. *)
Definition Add (c other : t) : t :=
  let uptime := if Uptime c <? Uptime other then Uptime other else Uptime c in
  let timestamp :=
    if Timestamp c <? Timestamp other then Timestamp other else Timestamp c in
  {| ID := ID c;
     Address := Address c;
     Uptime := uptime;
     FlashVersion := FlashVersion c;
     PageURL := PageURL c;
     SWFURL := SWFURL c;
     DroppedFrames := add64 (DroppedFrames c) (DroppedFrames other);
     AVSync := AVSync c;
     Timestamp := timestamp;
     Active := Active c || Active other;
     Publishing := Publishing c || Publishing other;
     EntriesCount := add64 (EntriesCount c) (EntriesCount other) |}.

(** The struct [UnmarshalXML] decodes into: [plain] embedded, and the four
    fields that shadow the embedded ones of the same element name. *)
Record stats : Type := mkStats {
  plain : t;
  sUptime : Z;
  sTimestamp : Z;
  sActive : bool;
  sPublishing : bool
}.

Definition on_plain (f : t -> t) (s : stats) : stats :=
  mkStats (f (plain s)) (sUptime s) (sTimestamp s) (sActive s) (sPublishing s).
Definition set_sUptime (v : Z) (s : stats) : stats :=
  mkStats (plain s) v (sTimestamp s) (sActive s) (sPublishing s).
Definition set_sTimestamp (v : Z) (s : stats) : stats :=
  mkStats (plain s) (sUptime s) v (sActive s) (sPublishing s).
Definition set_sActive (v : bool) (s : stats) : stats :=
  mkStats (plain s) (sUptime s) (sTimestamp s) v (sPublishing s).
Definition set_sPublishing (v : bool) (s : stats) : stats :=
  mkStats (plain s) (sUptime s) (sTimestamp s) (sActive s) v.

(** Its [typeInfo]: the embedded fields that are not shadowed, then the
    shadowing ones.  [EntriesCount] is tagged [xml:"-"] and has no entry. *)
Definition fields : list (fieldInfo stats) :=
  [ stringField [] "id" (fun v => on_plain (set_ID v));
    stringField [] "address" (fun v => on_plain (set_Address v));
    stringField [] "flashver" (fun v => on_plain (set_FlashVersion v));
    stringField [] "pageurl" (fun v => on_plain (set_PageURL v));
    stringField [] "swfurl" (fun v => on_plain (set_SWFURL v));
    intField [] "dropped" (fun v => on_plain (set_DroppedFrames v));
    intField [] "avsync" (fun v => on_plain (set_AVSync v));
    unmarshalerField [] "time" Duration_UnmarshalXML set_sUptime;
    unmarshalerField [] "timestamp" Duration_UnmarshalXML set_sTimestamp;
    unmarshalerField [] "active" Boolean_UnmarshalXML set_sActive;
    unmarshalerField [] "publishing" Boolean_UnmarshalXML set_sPublishing ].

(** [Client.UnmarshalXML]. *)
Definition UnmarshalXML (body : list Node) : M t :=
  do s <- decodeStruct fields body (mkStats zero 0 0 false false) ;
  let c := plain s in
  ret {| ID := ID c;
         Address := Address c;
         Uptime := sUptime s;
         FlashVersion := FlashVersion c;
         PageURL := PageURL c;
         SWFURL := SWFURL c;
         DroppedFrames := DroppedFrames c;
         AVSync := AVSync c;
         Timestamp := sTimestamp s;
         Active := sActive s;
         Publishing := sPublishing s;
         EntriesCount := 1 |}.

End Client.

Module Stream.

Record t : Type := mk {
  Name : string;
  Uptime : Z;
  BitrateIn : Z;
  BitrateOut : Z;
  BytesIn : Z;
  BytesOut : Z;
  BitrateVideo : Z;
  BitrateAudio : Z;
  NumClients : Z;
  Publishing : bool;
  Active : bool;
  VideoWidth : Z;
  VideoHeight : Z;
  VideoFramerate : Z;
  VideoCodec : string;
  VideoProfile : string;
  VideoCompat : Z;
  VideoLevel : float64;
  AudioCodec : string;
  AudioProfile : string;
  AudioChannels : Z;
  AudioSampleRate : Z;
  Clients : list Client.t
}.

Definition set_Name (v : string) (x : t) : t :=
  mk v (Uptime x) (BitrateIn x) (BitrateOut x) (BytesIn x) (BytesOut x)
    (BitrateVideo x) (BitrateAudio x) (NumClients x) (Publishing x) (Active x)
    (VideoWidth x) (VideoHeight x) (VideoFramerate x) (VideoCodec x)
    (VideoProfile x) (VideoCompat x) (VideoLevel x) (AudioCodec x)
    (AudioProfile x) (AudioChannels x) (AudioSampleRate x) (Clients x).
Definition set_BitrateIn (v : Z) (x : t) : t :=
  mk (Name x) (Uptime x) v (BitrateOut x) (BytesIn x) (BytesOut x)
    (BitrateVideo x) (BitrateAudio x) (NumClients x) (Publishing x) (Active x)
    (VideoWidth x) (VideoHeight x) (VideoFramerate x) (VideoCodec x)
    (VideoProfile x) (VideoCompat x) (VideoLevel x) (AudioCodec x)
    (AudioProfile x) (AudioChannels x) (AudioSampleRate x) (Clients x).
Definition set_BitrateOut (v : Z) (x : t) : t :=
  mk (Name x) (Uptime x) (BitrateIn x) v (BytesIn x) (BytesOut x)
    (BitrateVideo x) (BitrateAudio x) (NumClients x) (Publishing x) (Active x)
    (VideoWidth x) (VideoHeight x) (VideoFramerate x) (VideoCodec x)
    (VideoProfile x) (VideoCompat x) (VideoLevel x) (AudioCodec x)
    (AudioProfile x) (AudioChannels x) (AudioSampleRate x) (Clients x).
Definition set_BytesIn (v : Z) (x : t) : t :=
  mk (Name x) (Uptime x) (BitrateIn x) (BitrateOut x) v (BytesOut x)
    (BitrateVideo x) (BitrateAudio x) (NumClients x) (Publishing x) (Active x)
    (VideoWidth x) (VideoHeight x) (VideoFramerate x) (VideoCodec x)
    (VideoProfile x) (VideoCompat x) (VideoLevel x) (AudioCodec x)
    (AudioProfile x) (AudioChannels x) (AudioSampleRate x) (Clients x).
Definition set_BytesOut (v : Z) (x : t) : t :=
  mk (Name x) (Uptime x) (BitrateIn x) (BitrateOut x) (BytesIn x) v
    (BitrateVideo x) (BitrateAudio x) (NumClients x) (Publishing x) (Active x)
    (VideoWidth x) (VideoHeight x) (VideoFramerate x) (VideoCodec x)
    (VideoProfile x) (VideoCompat x) (VideoLevel x) (AudioCodec x)
    (AudioProfile x) (AudioChannels x) (AudioSampleRate x) (Clients x).
Definition set_BitrateVideo (v : Z) (x : t) : t :=
  mk (Name x) (Uptime x) (BitrateIn x) (BitrateOut x) (BytesIn x) (BytesOut x)
    v (BitrateAudio x) (NumClients x) (Publishing x) (Active x) (VideoWidth x)
    (VideoHeight x) (VideoFramerate x) (VideoCodec x) (VideoProfile x)
    (VideoCompat x) (VideoLevel x) (AudioCodec x) (AudioProfile x)
    (AudioChannels x) (AudioSampleRate x) (Clients x).
Definition set_BitrateAudio (v : Z) (x : t) : t :=
  mk (Name x) (Uptime x) (BitrateIn x) (BitrateOut x) (BytesIn x) (BytesOut x)
    (BitrateVideo x) v (NumClients x) (Publishing x) (Active x) (VideoWidth x)
    (VideoHeight x) (VideoFramerate x) (VideoCodec x) (VideoProfile x)
    (VideoCompat x) (VideoLevel x) (AudioCodec x) (AudioProfile x)
    (AudioChannels x) (AudioSampleRate x) (Clients x).
Definition set_NumClients (v : Z) (x : t) : t :=
  mk (Name x) (Uptime x) (BitrateIn x) (BitrateOut x) (BytesIn x) (BytesOut x)
    (BitrateVideo x) (BitrateAudio x) v (Publishing x) (Active x)
    (VideoWidth x) (VideoHeight x) (VideoFramerate x) (VideoCodec x)
    (VideoProfile x) (VideoCompat x) (VideoLevel x) (AudioCodec x)
    (AudioProfile x) (AudioChannels x) (AudioSampleRate x) (Clients x).
Definition set_VideoWidth (v : Z) (x : t) : t :=
  mk (Name x) (Uptime x) (BitrateIn x) (BitrateOut x) (BytesIn x) (BytesOut x)
    (BitrateVideo x) (BitrateAudio x) (NumClients x) (Publishing x) (Active x)
    v (VideoHeight x) (VideoFramerate x) (VideoCodec x) (VideoProfile x)
    (VideoCompat x) (VideoLevel x) (AudioCodec x) (AudioProfile x)
    (AudioChannels x) (AudioSampleRate x) (Clients x).
Definition set_VideoHeight (v : Z) (x : t) : t :=
  mk (Name x) (Uptime x) (BitrateIn x) (BitrateOut x) (BytesIn x) (BytesOut x)
    (BitrateVideo x) (BitrateAudio x) (NumClients x) (Publishing x) (Active x)
    (VideoWidth x) v (VideoFramerate x) (VideoCodec x) (VideoProfile x)
    (VideoCompat x) (VideoLevel x) (AudioCodec x) (AudioProfile x)
    (AudioChannels x) (AudioSampleRate x) (Clients x).
Definition set_VideoFramerate (v : Z) (x : t) : t :=
  mk (Name x) (Uptime x) (BitrateIn x) (BitrateOut x) (BytesIn x) (BytesOut x)
    (BitrateVideo x) (BitrateAudio x) (NumClients x) (Publishing x) (Active x)
    (VideoWidth x) (VideoHeight x) v (VideoCodec x) (VideoProfile x)
    (VideoCompat x) (VideoLevel x) (AudioCodec x) (AudioProfile x)
    (AudioChannels x) (AudioSampleRate x) (Clients x).
Definition set_VideoCodec (v : string) (x : t) : t :=
  mk (Name x) (Uptime x) (BitrateIn x) (BitrateOut x) (BytesIn x) (BytesOut x)
    (BitrateVideo x) (BitrateAudio x) (NumClients x) (Publishing x) (Active x)
    (VideoWidth x) (VideoHeight x) (VideoFramerate x) v (VideoProfile x)
    (VideoCompat x) (VideoLevel x) (AudioCodec x) (AudioProfile x)
    (AudioChannels x) (AudioSampleRate x) (Clients x).
Definition set_VideoProfile (v : string) (x : t) : t :=
  mk (Name x) (Uptime x) (BitrateIn x) (BitrateOut x) (BytesIn x) (BytesOut x)
    (BitrateVideo x) (BitrateAudio x) (NumClients x) (Publishing x) (Active x)
    (VideoWidth x) (VideoHeight x) (VideoFramerate x) (VideoCodec x) v
    (VideoCompat x) (VideoLevel x) (AudioCodec x) (AudioProfile x)
    (AudioChannels x) (AudioSampleRate x) (Clients x).
Definition set_VideoCompat (v : Z) (x : t) : t :=
  mk (Name x) (Uptime x) (BitrateIn x) (BitrateOut x) (BytesIn x) (BytesOut x)
    (BitrateVideo x) (BitrateAudio x) (NumClients x) (Publishing x) (Active x)
    (VideoWidth x) (VideoHeight x) (VideoFramerate x) (VideoCodec x)
    (VideoProfile x) v (VideoLevel x) (AudioCodec x) (AudioProfile x)
    (AudioChannels x) (AudioSampleRate x) (Clients x).
Definition set_VideoLevel (v : float64) (x : t) : t :=
  mk (Name x) (Uptime x) (BitrateIn x) (BitrateOut x) (BytesIn x) (BytesOut x)
    (BitrateVideo x) (BitrateAudio x) (NumClients x) (Publishing x) (Active x)
    (VideoWidth x) (VideoHeight x) (VideoFramerate x) (VideoCodec x)
    (VideoProfile x) (VideoCompat x) v (AudioCodec x) (AudioProfile x)
    (AudioChannels x) (AudioSampleRate x) (Clients x).
Definition set_AudioCodec (v : string) (x : t) : t :=
  mk (Name x) (Uptime x) (BitrateIn x) (BitrateOut x) (BytesIn x) (BytesOut x)
    (BitrateVideo x) (BitrateAudio x) (NumClients x) (Publishing x) (Active x)
    (VideoWidth x) (VideoHeight x) (VideoFramerate x) (VideoCodec x)
    (VideoProfile x) (VideoCompat x) (VideoLevel x) v (AudioProfile x)
    (AudioChannels x) (AudioSampleRate x) (Clients x).
Definition set_AudioProfile (v : string) (x : t) : t :=
  mk (Name x) (Uptime x) (BitrateIn x) (BitrateOut x) (BytesIn x) (BytesOut x)
    (BitrateVideo x) (BitrateAudio x) (NumClients x) (Publishing x) (Active x)
    (VideoWidth x) (VideoHeight x) (VideoFramerate x) (VideoCodec x)
    (VideoProfile x) (VideoCompat x) (VideoLevel x) (AudioCodec x) v
    (AudioChannels x) (AudioSampleRate x) (Clients x).
Definition set_AudioChannels (v : Z) (x : t) : t :=
  mk (Name x) (Uptime x) (BitrateIn x) (BitrateOut x) (BytesIn x) (BytesOut x)
    (BitrateVideo x) (BitrateAudio x) (NumClients x) (Publishing x) (Active x)
    (VideoWidth x) (VideoHeight x) (VideoFramerate x) (VideoCodec x)
    (VideoProfile x) (VideoCompat x) (VideoLevel x) (AudioCodec x)
    (AudioProfile x) v (AudioSampleRate x) (Clients x).
Definition set_AudioSampleRate (v : Z) (x : t) : t :=
  mk (Name x) (Uptime x) (BitrateIn x) (BitrateOut x) (BytesIn x) (BytesOut x)
    (BitrateVideo x) (BitrateAudio x) (NumClients x) (Publishing x) (Active x)
    (VideoWidth x) (VideoHeight x) (VideoFramerate x) (VideoCodec x)
    (VideoProfile x) (VideoCompat x) (VideoLevel x) (AudioCodec x)
    (AudioProfile x) (AudioChannels x) v (Clients x).
Definition set_Clients (v : list Client.t) (x : t) : t :=
  mk (Name x) (Uptime x) (BitrateIn x) (BitrateOut x) (BytesIn x) (BytesOut x)
    (BitrateVideo x) (BitrateAudio x) (NumClients x) (Publishing x) (Active x)
    (VideoWidth x) (VideoHeight x) (VideoFramerate x) (VideoCodec x)
    (VideoProfile x) (VideoCompat x) (VideoLevel x) (AudioCodec x)
    (AudioProfile x) (AudioChannels x) (AudioSampleRate x) v.

Definition zero : t :=
  mk "" 0 0 0 0 0 0 0 0 false false 0 0 0 "" "" 0 0 "" "" 0 0 [].

Record stats : Type := mkStats {
  plain : t;
  sUptime : Z;
  sPublishing : bool;
  sActive : bool
}.

Definition on_plain (f : t -> t) (s : stats) : stats :=
  mkStats (f (plain s)) (sUptime s) (sPublishing s) (sActive s).
Definition set_sUptime (v : Z) (s : stats) : stats :=
  mkStats (plain s) v (sPublishing s) (sActive s).
Definition set_sPublishing (v : bool) (s : stats) : stats :=
  mkStats (plain s) (sUptime s) v (sActive s).
Definition set_sActive (v : bool) (s : stats) : stats :=
  mkStats (plain s) (sUptime s) (sPublishing s) v.

Definition fields `{Library} : list (fieldInfo stats) :=
  [ stringField [] "name" (fun v => on_plain (set_Name v));
    intField [] "bw_in" (fun v => on_plain (set_BitrateIn v));
    intField [] "bw_out" (fun v => on_plain (set_BitrateOut v));
    intField [] "bytes_in" (fun v => on_plain (set_BytesIn v));
    intField [] "bytes_out" (fun v => on_plain (set_BytesOut v));
    intField [] "bw_video" (fun v => on_plain (set_BitrateVideo v));
    intField [] "bw_audio" (fun v => on_plain (set_BitrateAudio v));
    intField [] "nclients" (fun v => on_plain (set_NumClients v));
    intField ["meta"; "video"] "width" (fun v => on_plain (set_VideoWidth v));
    intField ["meta"; "video"] "height" (fun v => on_plain (set_VideoHeight v));
    intField ["meta"; "video"] "frame_rate"
      (fun v => on_plain (set_VideoFramerate v));
    stringField ["meta"; "video"] "codec" (fun v => on_plain (set_VideoCodec v));
    stringField ["meta"; "video"] "profile"
      (fun v => on_plain (set_VideoProfile v));
    intField ["meta"; "video"] "compat" (fun v => on_plain (set_VideoCompat v));
    floatField ["meta"; "video"] "level" (fun v => on_plain (set_VideoLevel v));
    stringField ["meta"; "audio"] "codec" (fun v => on_plain (set_AudioCodec v));
    stringField ["meta"; "audio"] "profile"
      (fun v => on_plain (set_AudioProfile v));
    intField ["meta"; "audio"] "channels"
      (fun v => on_plain (set_AudioChannels v));
    intField ["meta"; "audio"] "sample_rate"
      (fun v => on_plain (set_AudioSampleRate v));
    sliceField [] "client" Client.UnmarshalXML (fun s => Clients (plain s))
      (fun v => on_plain (set_Clients v));
    unmarshalerField [] "time" Duration_UnmarshalXML set_sUptime;
    unmarshalerField [] "publishing" Boolean_UnmarshalXML set_sPublishing;
    unmarshalerField [] "active" Boolean_UnmarshalXML set_sActive ].

(** [Stream.UnmarshalXML]. *)
Definition UnmarshalXML `{Library} (body : list Node) : M t :=
  do s <- decodeStruct fields body (mkStats zero 0 false false) ;
  let p := plain s in
  ret (mk (Name p) (sUptime s) (BitrateIn p) (BitrateOut p) (BytesIn p)
         (BytesOut p) (BitrateVideo p) (BitrateAudio p) (NumClients p)
         (sPublishing s) (sActive s) (VideoWidth p) (VideoHeight p)
         (VideoFramerate p) (VideoCodec p) (VideoProfile p) (VideoCompat p)
         (VideoLevel p) (AudioCodec p) (AudioProfile p) (AudioChannels p)
         (AudioSampleRate p) (Clients p)).

End Stream.

Module Application.

Record t : Type := mk {
  Name : string;
  Streams : list Stream.t
}.

Definition set_Name (v : string) (x : t) : t :=
  mk v (Streams x).
Definition set_Streams (v : list Stream.t) (x : t) : t :=
  mk (Name x) v.

Definition zero : t := mk "" [].

(** [Application] has no [UnmarshalXML]: the decoder fills the struct
    itself. *)
Definition fields `{Library} : list (fieldInfo t) :=
  [ stringField [] "name" set_Name;
    sliceField ["live"] "stream" Stream.UnmarshalXML Streams set_Streams ].

Definition decode `{Library} (body : list Node) : M t :=
  decodeStruct fields body zero.

End Application.

Module Stats.

Record t : Type := mk {
  NGINXVersion : string;
  NGINXRTMPVersion : string;
  Compiler : string;
  Built : time_Time;
  PID : Z;
  Uptime : Z;
  Accepted : Z;
  BitrateIn : Z;
  BitrateOut : Z;
  BytesIn : Z;
  BytesOut : Z;
  Applications : list Application.t
}.

Definition set_NGINXVersion (v : string) (x : t) : t :=
  mk v (NGINXRTMPVersion x) (Compiler x) (Built x) (PID x) (Uptime x)
    (Accepted x) (BitrateIn x) (BitrateOut x) (BytesIn x) (BytesOut x)
    (Applications x).
Definition set_NGINXRTMPVersion (v : string) (x : t) : t :=
  mk (NGINXVersion x) v (Compiler x) (Built x) (PID x) (Uptime x) (Accepted x)
    (BitrateIn x) (BitrateOut x) (BytesIn x) (BytesOut x) (Applications x).
Definition set_Compiler (v : string) (x : t) : t :=
  mk (NGINXVersion x) (NGINXRTMPVersion x) v (Built x) (PID x) (Uptime x)
    (Accepted x) (BitrateIn x) (BitrateOut x) (BytesIn x) (BytesOut x)
    (Applications x).
Definition set_PID (v : Z) (x : t) : t :=
  mk (NGINXVersion x) (NGINXRTMPVersion x) (Compiler x) (Built x) v (Uptime x)
    (Accepted x) (BitrateIn x) (BitrateOut x) (BytesIn x) (BytesOut x)
    (Applications x).
Definition set_Accepted (v : Z) (x : t) : t :=
  mk (NGINXVersion x) (NGINXRTMPVersion x) (Compiler x) (Built x) (PID x)
    (Uptime x) v (BitrateIn x) (BitrateOut x) (BytesIn x) (BytesOut x)
    (Applications x).
Definition set_BitrateIn (v : Z) (x : t) : t :=
  mk (NGINXVersion x) (NGINXRTMPVersion x) (Compiler x) (Built x) (PID x)
    (Uptime x) (Accepted x) v (BitrateOut x) (BytesIn x) (BytesOut x)
    (Applications x).
Definition set_BitrateOut (v : Z) (x : t) : t :=
  mk (NGINXVersion x) (NGINXRTMPVersion x) (Compiler x) (Built x) (PID x)
    (Uptime x) (Accepted x) (BitrateIn x) v (BytesIn x) (BytesOut x)
    (Applications x).
Definition set_BytesIn (v : Z) (x : t) : t :=
  mk (NGINXVersion x) (NGINXRTMPVersion x) (Compiler x) (Built x) (PID x)
    (Uptime x) (Accepted x) (BitrateIn x) (BitrateOut x) v (BytesOut x)
    (Applications x).
Definition set_BytesOut (v : Z) (x : t) : t :=
  mk (NGINXVersion x) (NGINXRTMPVersion x) (Compiler x) (Built x) (PID x)
    (Uptime x) (Accepted x) (BitrateIn x) (BitrateOut x) (BytesIn x) v
    (Applications x).
Definition set_Applications (v : list Application.t) (x : t) : t :=
  mk (NGINXVersion x) (NGINXRTMPVersion x) (Compiler x) (Built x) (PID x)
    (Uptime x) (Accepted x) (BitrateIn x) (BitrateOut x) (BytesIn x)
    (BytesOut x) v.

Definition zero : t := mk "" "" "" (mkTime 0) 0 0 0 0 0 0 0 [].

Record stats : Type := mkStats {
  plain : t;
  sBuilt : time_Time;
  sUptime : Z
}.

Definition on_plain (f : t -> t) (s : stats) : stats :=
  mkStats (f (plain s)) (sBuilt s) (sUptime s).
Definition set_sBuilt (v : time_Time) (s : stats) : stats :=
  mkStats (plain s) v (sUptime s).
Definition set_sUptime (v : Z) (s : stats) : stats :=
  mkStats (plain s) (sBuilt s) v.

Definition fields `{Library} : list (fieldInfo stats) :=
  [ stringField [] "nginx_version" (fun v => on_plain (set_NGINXVersion v));
    stringField [] "nginx_rtmp_version"
      (fun v => on_plain (set_NGINXRTMPVersion v));
    stringField [] "compiler" (fun v => on_plain (set_Compiler v));
    intField [] "pid" (fun v => on_plain (set_PID v));
    intField [] "naccepted" (fun v => on_plain (set_Accepted v));
    intField [] "bw_in" (fun v => on_plain (set_BitrateIn v));
    intField [] "bw_out" (fun v => on_plain (set_BitrateOut v));
    intField [] "bytes_in" (fun v => on_plain (set_BytesIn v));
    intField [] "bytes_out" (fun v => on_plain (set_BytesOut v));
    sliceField ["server"] "application" Application.decode
      (fun s => Applications (plain s)) (fun v => on_plain (set_Applications v));
    unmarshalerField [] "built" Time_UnmarshalXML set_sBuilt;
    unmarshalerField [] "uptime" Duration_UnmarshalXML set_sUptime ].

(** [Stats.UnmarshalXML]. *)
Definition UnmarshalXML `{Library} (body : list Node) : M t :=
  do s <- decodeStruct fields body (mkStats zero (mkTime 0) 0) ;
  let p := plain s in
  ret {| NGINXVersion := NGINXVersion p;
         NGINXRTMPVersion := NGINXRTMPVersion p;
         Compiler := Compiler p;
         Built := sBuilt s;
         PID := PID p;
         Uptime := mul64 (quot64 (sUptime s) Millisecond) Second;
         Accepted := Accepted p;
         BitrateIn := BitrateIn p;
         BitrateOut := BitrateOut p;
         BytesIn := BytesIn p;
         BytesOut := BytesOut p;
         Applications := Applications p |}.

End Stats.

(** [Unmarshal], decoding part: [dec.Decode(&s)] on a fresh decoder.  The
    document is its root element. *)
Definition decodeDocument `{Library} (doc : Node) : result Stats.t :=
  match doc with
  | Element _ body =>
      match Stats.UnmarshalXML body NewDecoder with
      | Ok (s, _) => Ok s
      | Err e => Err e
      end
  | CharData _ => Err (Errorf "EOF")
  end.

(** ** mutations.go *)

(** A [Mutator] runs on the [Stats] behind the pointer: it leaves a [Stats]
    and returns an error or [nil].  [None] is a run-time panic. *)
Definition Mutator : Type := Stats.t -> option (Stats.t * option error).

(** The loop of [WithStreamMapper] over the streams of one application. *)
Fixpoint mapStreams (mapper : string -> string) (streams transformed : list Stream.t)
    (streamLookup : gset string) : result (list Stream.t) :=
  match streams with
  | [] => Ok transformed
  | stream :: rest =>
      let stream := Stream.set_Name (mapper (Stream.Name stream)) stream in
      if bool_decide (Stream.Name stream ∈ streamLookup) then
        Err (Errorf (String.append "a stream with the name "
                       (String.append (Stream.Name stream) " already exists")))
      else
        mapStreams mapper rest (transformed ++ [stream])
          ({[Stream.Name stream]} ∪ streamLookup)
  end.

(** Its loop over the applications: an application whose streams were
    transformed is written back before the next one is looked at; the first
    duplicate returns. *)
Fixpoint mapApplications (mapper : string -> string) (apps : list Application.t)
    : list Application.t * option error :=
  match apps with
  | [] => ([], None)
  | app :: rest =>
      match mapStreams mapper (Application.Streams app) [] ∅ with
      | Err e => (app :: rest, Some e)
      | Ok transformed =>
          let '(rest', err) := mapApplications mapper rest in
          (Application.set_Streams transformed app :: rest', err)
      end
  end.

(** [WithStreamMapper]. *)
Definition WithStreamMapper (mapper : string -> string) : Mutator :=
  fun s =>
    let '(apps, err) := mapApplications mapper (Stats.Applications s) in
    Some (Stats.set_Applications apps s, err).

(** The loop of [WithClientMapper] over the clients of one stream.
    [aggregated[duplicateIdx]] panics out of range. *)
Fixpoint aggregateClients (mapper : string -> string -> string) (stream : string)
    (clients aggregated : list Client.t) (clientLookup : gmap string nat)
    : option (list Client.t) :=
  match clients with
  | [] => Some aggregated
  | client :: rest =>
      let client := Client.set_ID (mapper stream (Client.ID client)) client in
      match clientLookup !! Client.ID client with
      | None =>
          aggregateClients mapper stream rest (aggregated ++ [client])
            (<[Client.ID client := length aggregated]> clientLookup)
      | Some duplicateIdx =>
          match aggregated !! duplicateIdx with
          | Some acc =>
              aggregateClients mapper stream rest
                (<[duplicateIdx := Client.Add acc client]> aggregated)
                clientLookup
          | None => None
          end
      end
  end.

Fixpoint aggregateStreams (mapper : string -> string -> string)
    (streams : list Stream.t) : option (list Stream.t) :=
  match streams with
  | [] => Some []
  | stream :: rest =>
      match aggregateClients mapper (Stream.Name stream) (Stream.Clients stream) [] ∅ with
      | None => None
      | Some aggregated =>
          match aggregateStreams mapper rest with
          | None => None
          | Some rest' => Some (Stream.set_Clients aggregated stream :: rest')
          end
      end
  end.

Fixpoint aggregateApplications (mapper : string -> string -> string)
    (apps : list Application.t) : option (list Application.t) :=
  match apps with
  | [] => Some []
  | app :: rest =>
      match aggregateStreams mapper (Application.Streams app) with
      | None => None
      | Some streams =>
          match aggregateApplications mapper rest with
          | None => None
          | Some rest' => Some (Application.set_Streams streams app :: rest')
          end
      end
  end.

(** [WithClientMapper]. *)
Definition WithClientMapper (mapper : string -> string -> string) : Mutator :=
  fun s =>
    match aggregateApplications mapper (Stats.Applications s) with
    | None => None
    | Some apps => Some (Stats.set_Applications apps s, None)
    end.

(** [Unmarshal], mutation part: the mutators in order, up to the first
    error. *)
Fixpoint applyMutators (muts : list Mutator) (s : Stats.t) : option (result Stats.t) :=
  match muts with
  | [] => Some (Ok s)
  | mut :: rest =>
      match mut s with
      | None => None
      | Some (_, Some err) => Some (Err err)
      | Some (s', None) => applyMutators rest s'
      end
  end.

(** [Unmarshal]. *)
Definition Unmarshal `{Library} (doc : Node) (muts : list Mutator)
    : option (result Stats.t) :=
  match decodeDocument doc with
  | Err e => Some (Err e)
  | Ok s => applyMutators muts s
  end.

(** ** package exporter: the stream metrics of [Collect] *)

(** The search for the publisher of a stream: [publisher] is the zero
    [Client] until a publishing client is met, and the loop stops there. *)
Fixpoint findPublisher (clients : list Client.t) (publisher : Client.t) : Client.t :=
  match clients with
  | [] => publisher
  | cli :: rest => if Client.Publishing cli then cli else findPublisher rest publisher
  end.

(** A constant metric as [Collect] sends it: its descriptor and its label
    values (the sample value is left out). *)
Record Metric : Type := mkMetric {
  fqName : string;
  labelValues : list string
}.

(** [fmt.Sprintf("%d", n)]. *)
Definition Sprintf_d (n : Z) : string := pretty n.

Definition streamMetrics (app : Application.t) (stream : Stream.t) : list Metric :=
  let publisher := findPublisher (Stream.Clients stream) Client.zero in
  let labels := [Application.Name app; Stream.Name stream; Client.ID publisher] in
  [ mkMetric "rtmp_stream_uptime_seconds" labels;
    mkMetric "rtmp_stream_bitrate_in" labels;
    mkMetric "rtmp_stream_bitrate_out" labels;
    mkMetric "rtmp_stream_bytes_read_total" labels;
    mkMetric "rtmp_stream_bytes_sent_total" labels;
    mkMetric "rtmp_stream_current_clients" labels;
    mkMetric "rtmp_stream_info"
      (labels ++
       [ String.append (Sprintf_d (Stream.VideoWidth stream))
           (String.append "x" (Sprintf_d (Stream.VideoHeight stream)));
         Sprintf_d (Stream.VideoFramerate stream);
         Stream.VideoCodec stream;
         Stream.AudioCodec stream;
         Sprintf_d (Stream.AudioChannels stream);
         Sprintf_d (Stream.AudioSampleRate stream) ]) ].

(** The loop of [Collect] over the applications and their streams. *)
Definition collectStreams (s : Stats.t) : list Metric :=
  concat ((fun app => concat (streamMetrics app <$> Application.Streams app))
            <$> Stats.Applications s).

(** ** Notions the properties are stated with *)

Definition sumZ (l : list Z) : Z := foldr Z.add 0 l.

Definition maxZ (first : Z) (rest : list Z) : Z := foldl Z.max first rest.

(** The error [WithStreamMapper] fails with. *)
Definition CollisionError (n : string) : error :=
  Errorf (String.append "a stream with the name " (String.append n " already exists")).

(** The name a stream gets, and the stream renamed. *)
Definition newName (mapper : string -> string) (stream : Stream.t) : string :=
  mapper (Stream.Name stream).

Definition renameStream (mapper : string -> string) (stream : Stream.t) : Stream.t :=
  Stream.set_Name (newName mapper stream) stream.

Definition renameStreams (mapper : string -> string) (app : Application.t)
    : Application.t :=
  Application.set_Streams (renameStream mapper <$> Application.Streams app) app.

(** Two streams of [app], at different places, both get the name [n]. *)
Definition collides (mapper : string -> string) (app : Application.t) (n : string)
    : Prop :=
  ∃ (j k : nat) (x y : Stream.t),
    (j < k)%nat ∧
    Application.Streams app !! j = Some x ∧
    Application.Streams app !! k = Some y ∧
    newName mapper x = n ∧ newName mapper y = n.

(** The streams of [app] get pairwise distinct names. *)
Definition distinctNames (mapper : string -> string) (app : Application.t) : Prop :=
  NoDup (newName mapper <$> Application.Streams app).

(** The first name of [l] that is in [seen] or occurred before in [l]. *)
Fixpoint firstDup (seen : gset string) (l : list string) : option string :=
  match l with
  | [] => None
  | x :: l' =>
      if bool_decide (x ∈ seen) then Some x else firstDup ({[x]} ∪ seen) l'
  end.

(** The client with its identifier rewritten. *)
Definition remap (mapper : string -> string -> string) (stream : string)
    (c : Client.t) : Client.t :=
  Client.set_ID (mapper stream (Client.ID c)) c.

(** The distinct identifiers of [ids], in the order they first occur. *)
Fixpoint firstSeen (ids : list string) : list string :=
  match ids with
  | [] => []
  | x :: l => x :: filter (λ y, y ≠ x) (firstSeen l)
  end.

(** The clients of [cs] that carry the identifier [id], in encounter order. *)
Definition group (id : string) (cs : list Client.t) : list Client.t :=
  filter (λ c, Client.ID c = id) cs.

(** The first client of a group is the accumulator; each later one is
    folded in with [Add]. *)
Definition mergeGroup (g : list Client.t) : Client.t :=
  match g with
  | [] => Client.zero
  | first :: rest => foldl Client.Add first rest
  end.

(** The client list the specification asks of the client mapper: one merged
    client per identifier, in first-seen order. *)
Definition mergeByID (cs : list Client.t) : list Client.t :=
  (λ id, mergeGroup (group id cs)) <$> firstSeen (Client.ID <$> cs).

(** The stream with its clients merged by identifier, and the application
    with that done in each of its streams. *)
Definition mergeClients (mapper : string -> string -> string) (stream : Stream.t)
    : Stream.t :=
  Stream.set_Clients
    (mergeByID (remap mapper (Stream.Name stream) <$> Stream.Clients stream)) stream.

Definition mergeStreams (mapper : string -> string -> string) (app : Application.t)
    : Application.t :=
  Application.set_Streams (mergeClients mapper <$> Application.Streams app) app.

(** What [Add], applied along a group, makes of each field.  The two sums
    are sums of [int]: equal to the sum of the integers up to the wrap-around
    of the type, and equal to it when it fits the type. *)
Record mergedFields (first : Client.t) (rest : list Client.t) (out : Client.t)
    : Prop := {
  merged_ID : Client.ID out = Client.ID first;
  merged_Address : Client.Address out = Client.Address first;
  merged_FlashVersion : Client.FlashVersion out = Client.FlashVersion first;
  merged_PageURL : Client.PageURL out = Client.PageURL first;
  merged_SWFURL : Client.SWFURL out = Client.SWFURL first;
  merged_AVSync : Client.AVSync out = Client.AVSync first;
  merged_Uptime :
    Client.Uptime out = maxZ (Client.Uptime first) (Client.Uptime <$> rest);
  merged_Timestamp :
    Client.Timestamp out = maxZ (Client.Timestamp first) (Client.Timestamp <$> rest);
  merged_Active : Client.Active out = existsb Client.Active (first :: rest);
  merged_Publishing :
    Client.Publishing out = existsb Client.Publishing (first :: rest);
  merged_DroppedFrames_int :
    wrap64 (Client.DroppedFrames out)
      = wrap64 (sumZ (Client.DroppedFrames <$> (first :: rest)));
  merged_DroppedFrames :
    inInt64 (sumZ (Client.DroppedFrames <$> (first :: rest))) →
    Client.DroppedFrames out = sumZ (Client.DroppedFrames <$> (first :: rest));
  merged_EntriesCount_int :
    wrap64 (Client.EntriesCount out)
      = wrap64 (sumZ (Client.EntriesCount <$> (first :: rest)));
  merged_EntriesCount :
    inInt64 (sumZ (Client.EntriesCount <$> (first :: rest))) →
    Client.EntriesCount out = sumZ (Client.EntriesCount <$> (first :: rest))
}.


(** [id] is the identifier of the first client of [clients] whose
    publishing flag is set, or the empty identifier when there is none. *)
Definition isPublisherID (clients : list Client.t) (id : string) : Prop :=
  (∃ pre c post,
     clients = pre ++ c :: post ∧
     Forall (λ x, Client.Publishing x = false) pre ∧
     Client.Publishing c = true ∧
     id = Client.ID c) ∨
  (Forall (λ x, Client.Publishing x = false) clients ∧ id = "").



(** Decoding an element into a field keeps the invariant [P] of the
    struct. *)
Definition preserves {T} (P : T → Prop) (f : fieldInfo T) : Prop :=
  ∀ body sv d sv' d',
    P sv → unmarshalField f body sv d = Ok (sv', d') → P sv'.

(** A library for documents that hold neither a float nor a time. *)
Definition plainLibrary : Library :=
  {| ParseFloat := λ _, None; time_Parse := λ _, None |}.









(** ** Example values *)

Definition streamNamed (n : string) : Stream.t := Stream.set_Name n Stream.zero.

Definition statsOf (apps : list Application.t) : Stats.t :=
  Stats.set_Applications apps Stats.zero.

(** The input of [TestWithStreamMapper]. *)
Definition testStreams : Stats.t :=
  statsOf [Application.mk "" [streamNamed "stream_a"; streamNamed "stream_b"]].

(** Two applications: the second one holds the duplicate. *)
Definition twoApplications : Stats.t :=
  statsOf [ Application.mk "first" [streamNamed "a"];
            Application.mk "second" [streamNamed "b"; streamNamed "c"] ].

(** An application that already holds two streams of one name. *)
Definition sameNameTwice : Stats.t :=
  statsOf [Application.mk "live" [streamNamed "a"; streamNamed "a"]].

(** The stream of [TestWithClientMapper] and its mapper; [ec] is the
    [EntriesCount] of the three clients (the test leaves it [0], a decoded
    client has [1]) and [n] the [NumClients] of the stream. *)
Definition sumA (ec : Z) : Client.t :=
  Client.mk "sum_a" "127.0.0.1" Minute "1" "http://localhost/watch" "https://swf"
    150 (-12) Minute false false ec.

Definition otherA (ec : Z) : Client.t :=
  Client.mk "other_a" "1.1.1.1" Minute "2" "http://other.localhost/watch"
    "https://swf2" 0 0 Minute false false ec.

Definition sumB (ec : Z) : Client.t :=
  Client.mk "sum_b" "127.0.0.2" Second "1.1" "http://localhost/watch-also"
    "https://swf/1" 100 (-12) Second true false ec.

Definition testClients (ec n : Z) : Stats.t :=
  statsOf [Application.mk ""
             [Stream.set_NumClients n
                (Stream.set_Clients [sumA ec; otherA ec; sumB ec]
                   (streamNamed "stream"))]].

Definition combineSums (stream id : string) : string :=
  if bool_decide (id = "sum_a" ∨ id = "sum_b") then "sum" else id.

(** The stream of the publisher example: [A] does not publish, [B] and [C]
    do. *)
Definition viewer (id : string) (publishing : bool) : Client.t :=
  Client.mk id "" 0 "" "" "" 0 0 0 true publishing 1.

Definition publisherExample : Stream.t :=
  Stream.set_Clients [viewer "A" false; viewer "B" true; viewer "C" true]
    (streamNamed "live").

(** A document with two client records; the first carries an element named
    after the [EntriesCount] field. *)
Definition twoClientsDocument : Node :=
  Element "rtmp"
    [ Element "uptime" [CharData "93879"];
      Element "server"
        [ Element "application"
            [ Element "name" [CharData "live"];
              Element "live"
                [ Element "stream"
                    [ Element "name" [CharData "streamName"];
                      Element "nclients" [CharData "2"];
                      Element "client"
                        [ Element "id" [CharData "51"];
                          Element "EntriesCount" [CharData "7"];
                          Element "active" [] ];
                      Element "client"
                        [ Element "id" [CharData "1"];
                          Element "publishing" [] ] ] ] ] ] ].

(** What it decodes to. *)
Definition twoClientsStream : Stream.t :=
  Stream.set_NumClients 2
    (Stream.set_Clients
       [ Client.mk "51" "" 0 "" "" "" 0 0 0 true false 1;
         Client.mk "1" "" 0 "" "" "" 0 0 0 false true 1 ]
       (streamNamed "streamName")).

Definition twoClientsStats : Stats.t :=
  Stats.mk "" "" "" (mkTime 0) 0 (93879 * Second) 0 0 0 0 0
    [Application.mk "live" [twoClientsStream]].



(** * Properties *)

(** ** Machine integers *)

Lemma wrap64_id z : inInt64 z → wrap64 z = z.
Proof.
  unfold inInt64, wrap64, MinInt64, MaxInt64. intros Hz.
  rewrite Z.mod_small; lia.
Qed.

Lemma wrap64_range z : inInt64 (wrap64 z).
Proof.
  unfold inInt64, wrap64, MinInt64, MaxInt64.
  pose proof (Z.mod_pos_bound (z + 2 ^ 63) (2 ^ 64)) as Hb. lia.
Qed.

Lemma wrap64_add_l a b : wrap64 (wrap64 a + b) = wrap64 (a + b).
Proof.
  unfold wrap64.
  replace ((a + 2 ^ 63) mod 2 ^ 64 - 2 ^ 63 + b + 2 ^ 63)
    with ((a + 2 ^ 63) mod 2 ^ 64 + b) by lia.
  rewrite Zplus_mod_idemp_l. f_equal. f_equal. lia.
Qed.

Lemma foldl_add64 a l :
  foldl add64 a l = match l with [] => a | _ => wrap64 (a + sumZ l) end.
Proof.
  revert a. induction l as [|x l IH]; intros a; [done|].
  simpl. rewrite IH. destruct l as [|y l].
  - unfold add64, sumZ. simpl. f_equal. lia.
  - unfold add64. rewrite wrap64_add_l. f_equal. unfold sumZ. simpl. lia.
Qed.

Lemma wrap64_idem z : wrap64 (wrap64 z) = wrap64 z.
Proof. apply wrap64_id, wrap64_range. Qed.

Lemma wrap64_add_r a b : wrap64 (a + wrap64 b) = wrap64 (a + b).
Proof. by rewrite (Z.add_comm a), wrap64_add_l, (Z.add_comm b). Qed.

Lemma wrap64_add_congr a b x : wrap64 a = wrap64 b → wrap64 (a + x) = wrap64 (b + x).
Proof.
  intros Hab. by rewrite <- (wrap64_add_l a), <- (wrap64_add_l b), Hab.
Qed.

Lemma foldl_add64_wrap a l : wrap64 (foldl add64 a l) = wrap64 (a + sumZ l).
Proof.
  rewrite foldl_add64. destruct l as [|x l].
  - unfold sumZ. simpl. f_equal. lia.
  - apply wrap64_idem.
Qed.

Lemma foldl_add64_exact a l :
  inInt64 (a + sumZ l) → foldl add64 a l = a + sumZ l.
Proof.
  intros Hr. rewrite foldl_add64. destruct l as [|x l].
  - unfold sumZ. simpl. lia.
  - by apply wrap64_id.
Qed.

(** ** The stream mapper *)

Lemma set_Name_Name (s : Stream.t) : Stream.set_Name (Stream.Name s) s = s.
Proof. by destruct s. Qed.

Lemma set_Streams_Streams (a : Application.t) :
  Application.set_Streams (Application.Streams a) a = a.
Proof. by destruct a. Qed.

Lemma set_Applications_Applications (s : Stats.t) :
  Stats.set_Applications (Stats.Applications s) s = s.
Proof. by destruct s. Qed.

Lemma firstDup_None seen l :
  firstDup seen l = None ↔ NoDup l ∧ ∀ x, x ∈ l → x ∉ seen.
Proof.
  revert seen. induction l as [|x l IH]; intros seen; simpl.
  - split; [intros _|done]. split; [constructor|]. intros x Hx. by apply elem_of_nil in Hx.
  - case_bool_decide as Hx.
    + split; [done|]. intros [_ Hs]. exfalso. apply (Hs x); [left|done].
    + rewrite IH, NoDup_cons. split.
      * intros [Hnd Hs]. split; [split; [|done]|].
        -- intros Hin. apply (Hs x Hin). set_solver.
        -- intros y [->|Hy]%elem_of_cons; [done|]. specialize (Hs y Hy). set_solver.
      * intros [[Hnx Hnd] Hs]. split; [done|]. intros y Hy.
        assert (y ≠ x) by (intros ->; done).
        assert (y ∈ x :: l) as Hy' by (apply elem_of_cons; by right).
        specialize (Hs y Hy'). set_solver.
Qed.

Lemma firstDup_Some seen l n :
  firstDup seen l = Some n →
  (∃ k, l !! k = Some n ∧ n ∈ seen) ∨
  (∃ j k, (j < k)%nat ∧ l !! j = Some n ∧ l !! k = Some n).
Proof.
  revert seen. induction l as [|x l IH]; intros seen; simpl; [done|].
  case_bool_decide as Hx.
  - intros [= ->]. left. by exists 0%nat.
  - intros Hd. destruct (IH _ Hd) as [(k & Hk & Hin)|(j & k & Hjk & Hj & Hk)].
    + apply elem_of_union in Hin as [->%elem_of_singleton|Hin].
      * right. exists 0%nat, (S k). split; [lia|done].
      * left. by exists (S k).
    + right. exists (S j), (S k). split; [lia|done].
Qed.

Lemma firstDup_empty_Some l n :
  firstDup ∅ l = Some n →
  ∃ j k, (j < k)%nat ∧ l !! j = Some n ∧ l !! k = Some n.
Proof.
  intros [(k & _ & Hin)|H]%firstDup_Some; [set_solver|done].
Qed.

Lemma NoDup_lookup_lt {A} (l : list A) j k x :
  NoDup l → (j < k)%nat → l !! j = Some x → l !! k = Some x → False.
Proof.
  intros Hnd Hjk Hj Hk. pose proof (NoDup_lookup l j k x Hnd Hj Hk). lia.
Qed.

(** The loop over the streams of one application: the first repeated name
    stops it, and otherwise every stream is renamed. *)
Lemma mapStreams_spec mapper streams transformed streamLookup :
  mapStreams mapper streams transformed streamLookup =
  match firstDup streamLookup (newName mapper <$> streams) with
  | Some n => Err (CollisionError n)
  | None => Ok (transformed ++ (renameStream mapper <$> streams))
  end.
Proof.
  revert transformed streamLookup.
  induction streams as [|s streams IH]; intros transformed streamLookup.
  - simpl. by rewrite app_nil_r.
  - rewrite !fmap_cons. cbn [mapStreams firstDup].
    change (Stream.Name (Stream.set_Name ?v _)) with v.
    fold (newName mapper s). fold (renameStream mapper s).
    fold (CollisionError (newName mapper s)).
    case_bool_decide; [done|].
    rewrite IH. destruct (firstDup _ _); [done|].
    by rewrite <- app_assoc.
Qed.

Lemma collides_not_distinct mapper app n :
  collides mapper app n → ¬ distinctNames mapper app.
Proof.
  intros (j & k & x & y & Hjk & Hj & Hk & Hx & Hy) Hnd.
  eapply (NoDup_lookup_lt _ j k n Hnd Hjk); rewrite list_lookup_fmap.
  - by rewrite Hj; simpl; rewrite Hx.
  - by rewrite Hk; simpl; rewrite Hy.
Qed.

Lemma firstDup_collides mapper app n :
  firstDup ∅ (newName mapper <$> Application.Streams app) = Some n →
  collides mapper app n.
Proof.
  intros (j & k & Hjk & Hj & Hk)%firstDup_empty_Some.
  rewrite list_lookup_fmap in Hj, Hk.
  destruct (Application.Streams app !! j) as [x|] eqn:Ej; [|done].
  destruct (Application.Streams app !! k) as [y|] eqn:Ek; [|done].
  simpl in Hj, Hk. exists j, k, x, y. naive_solver.
Qed.

(** The loop over the applications. *)
Lemma mapApplications_ok mapper apps apps' :
  mapApplications mapper apps = (apps', None) ↔
  Forall (distinctNames mapper) apps ∧ apps' = (renameStreams mapper <$> apps).
Proof.
  revert apps'. induction apps as [|app apps IH]; intros apps'; simpl.
  - split; [intros [= <-]; by split|by intros [_ ->]].
  - rewrite mapStreams_spec.
    destruct (firstDup ∅ _) as [n|] eqn:Ed.
    + split; [done|]. intros [Hall _]. apply Forall_cons in Hall as [Hd _].
      apply firstDup_collides in Ed. by apply collides_not_distinct in Ed.
    + apply firstDup_None in Ed as [Hnd _].
      destruct (mapApplications mapper apps) as [rest' err] eqn:Er.
      split.
      * intros [= <- ->]. destruct (IH rest') as [[Hall ->] _]; [done|].
        split; [by constructor|done].
      * intros [[_ Hall]%Forall_cons ->].
        destruct (IH (renameStreams mapper <$> apps)) as [_ Hb].
        specialize (Hb (conj Hall eq_refl)). by simplify_eq.
Qed.

Lemma mapApplications_err mapper apps apps' e :
  mapApplications mapper apps = (apps', Some e) →
  ∃ pre app post n,
    apps = pre ++ app :: post ∧
    apps' = (renameStreams mapper <$> pre) ++ app :: post ∧
    Forall (distinctNames mapper) pre ∧
    collides mapper app n ∧
    e = CollisionError n.
Proof.
  revert apps'. induction apps as [|app apps IH]; intros apps'; simpl; [done|].
  rewrite mapStreams_spec.
  destruct (firstDup ∅ _) as [n|] eqn:Ed.
  - intros [= <- <-]. exists [], app, apps, n.
    split_and!; [done|done|constructor|by apply firstDup_collides|done].
  - apply firstDup_None in Ed as [Hnd _].
    destruct (mapApplications mapper apps) as [rest' err] eqn:Er.
    intros [= <- ->].
    destruct (IH rest' eq_refl) as (pre & a & post & n & -> & -> & Hall & Hc & ->).
    exists (app :: pre), a, post, n.
    split_and!; [done|done|by constructor|done|done].
Qed.

Lemma fmap_fixed {A} (f : A → A) (l : list A) : (∀ x, f x = x) → f <$> l = l.
Proof.
  intros Hf. induction l as [|x l IH]; [done|]. by rewrite fmap_cons, Hf, IH.
Qed.

Lemma renameStream_id s : renameStream (λ n, n) s = s.
Proof. apply set_Name_Name. Qed.

Lemma renameStreams_id app : renameStreams (λ n, n) app = app.
Proof.
  unfold renameStreams.
  rewrite fmap_fixed by apply renameStream_id. apply set_Streams_Streams.
Qed.

(** C3, as stated, fails: with two applications of which the second holds
    the duplicate, the call returns the collision error and the stream of
    the first application has already been renamed. *)
Lemma WithStreamMapper_error_keeps_earlier_renames :
  ∃ s',
    WithStreamMapper (λ _, "x") twoApplications = Some (s', Some (CollisionError "x")) ∧
    Application.Streams <$> Stats.Applications twoApplications !! 0%nat
      = Some [streamNamed "a"] ∧
    Application.Streams <$> Stats.Applications s' !! 0%nat = Some [streamNamed "x"] ∧
    streamNamed "x" ≠ streamNamed "a".
Proof.
  eexists. split_and!; [reflexivity|reflexivity|reflexivity|discriminate].
Qed.

(** C3, amended: when the mutator of [WithStreamMapper] returns an error,
    the application in which the duplicate name arose and every application
    after it are exactly as before the call; the applications before it,
    whose streams got pairwise distinct names, have been written back with
    their streams renamed; nothing else of the [Stats] changes. *)
Theorem WithStreamMapper_error_scope mapper s s' e :
  WithStreamMapper mapper s = Some (s', Some e) →
  ∃ pre app post n,
    Stats.Applications s = pre ++ app :: post ∧
    s' = Stats.set_Applications ((renameStreams mapper <$> pre) ++ app :: post) s ∧
    Forall (distinctNames mapper) pre ∧
    collides mapper app n ∧
    e = CollisionError n.
Proof.
  unfold WithStreamMapper.
  destruct (mapApplications mapper (Stats.Applications s)) as [apps err] eqn:E.
  intros [= <- ->].
  destruct (mapApplications_err _ _ _ _ E) as (pre & app & post & n & H1 & -> & H3 & H4 & H5).
  by exists pre, app, post, n.
Qed.

Lemma WithStreamMapper_error_scope_witness :
  ∃ pre app post n,
    Stats.Applications twoApplications = pre ++ app :: post ∧
    Forall (distinctNames (λ _, "x")) pre ∧
    collides (λ _, "x") app n ∧
    CollisionError "x" = CollisionError n.
Proof.
  destruct (WithStreamMapper_error_scope (λ _, "x") twoApplications
              (Stats.set_Applications
                 [ Application.mk "first" [streamNamed "x"];
                   Application.mk "second" [streamNamed "b"; streamNamed "c"] ]
                 Stats.zero)
              (CollisionError "x") eq_refl)
    as (pre & app & post & n & H1 & _ & H3 & H4 & H5).
  exists pre, app, post, n. exact (conj H1 (conj H3 (conj H4 H5))).
Defined.



(** C7, as stated, fails: on an application that already holds two streams
    of one name the identity mapper returns the collision error. *)
Lemma WithStreamMapper_identity_can_fail :
  WithStreamMapper (λ n, n) sameNameTwice
    = Some (sameNameTwice, Some (CollisionError "a")).
Proof. reflexivity. Qed.

(** C7, amended: on a [Stats] in which no application holds two streams of
    the same name, the mutator of [WithStreamMapper] with the identity
    returns no error and leaves the [Stats] as it was. *)
Theorem WithStreamMapper_identity s :
  Forall (λ app, NoDup (Stream.Name <$> Application.Streams app)) (Stats.Applications s) →
  WithStreamMapper (λ n, n) s = Some (s, None).
Proof.
  intros Hall. unfold WithStreamMapper.
  assert (mapApplications (λ n, n) (Stats.Applications s)
          = (Stats.Applications s, None)) as ->.
  { apply mapApplications_ok. split; [exact Hall|].
    by rewrite fmap_fixed by apply renameStreams_id. }
  by rewrite set_Applications_Applications.
Qed.

Lemma WithStreamMapper_identity_witness :
  WithStreamMapper (λ n, n) testStreams = Some (testStreams, None).
Proof.
  apply WithStreamMapper_identity.
  repeat constructor; set_solver.
Defined.

(** ** The client mapper *)

Lemma elem_of_firstSeen x l : x ∈ firstSeen l ↔ x ∈ l.
Proof.
  induction l as [|y l IH]; simpl; [done|].
  rewrite !elem_of_cons, list_elem_of_filter, IH.
  destruct (decide (x = y)); naive_solver.
Qed.

Lemma NoDup_firstSeen l : NoDup (firstSeen l).
Proof.
  induction l as [|y l IH]; simpl; [constructor|].
  apply NoDup_cons. split; [|by apply NoDup_filter].
  rewrite list_elem_of_filter. naive_solver.
Qed.

Lemma firstSeen_snoc l x :
  firstSeen (l ++ [x]) = if decide (x ∈ l) then firstSeen l else firstSeen l ++ [x].
Proof.
  induction l as [|y l IH]; cbn [firstSeen app].
  - rewrite decide_False; [done|]. by intros ?%elem_of_nil.
  - rewrite IH. destruct (decide (x ∈ l)) as [Hin|Hnin].
    + rewrite decide_True; [done|]. apply elem_of_cons. by right.
    + rewrite filter_app. destruct (decide (x = y)) as [->|Hne].
      * rewrite decide_True by (apply elem_of_cons; by left).
        rewrite filter_cons_False by naive_solver. by rewrite filter_nil, app_nil_r.
      * rewrite decide_False by (rewrite elem_of_cons; naive_solver).
        by rewrite filter_cons_True by done.
Qed.

Lemma group_snoc id cs c :
  group id (cs ++ [c]) = group id cs ++ (if decide (Client.ID c = id) then [c] else []).
Proof.
  unfold group. by rewrite filter_app.
Qed.

Lemma group_nil id cs : id ∉ Client.ID <$> cs → group id cs = [].
Proof.
  intros Hn. unfold group. induction cs as [|c cs IH]; [done|].
  rewrite fmap_cons, not_elem_of_cons in Hn. destruct Hn as [Hne Hn].
  rewrite filter_cons_False by done. by apply IH.
Qed.

Lemma group_not_nil id cs : id ∈ Client.ID <$> cs → group id cs ≠ [].
Proof.
  intros (c & -> & Hc)%list_elem_of_fmap Hnil.
  assert (c ∈ group (Client.ID c) cs) as Hin by (by apply list_elem_of_filter).
  rewrite Hnil in Hin. by apply elem_of_nil in Hin.
Qed.

Lemma mergeGroup_snoc g c :
  g ≠ [] → mergeGroup (g ++ [c]) = Client.Add (mergeGroup g) c.
Proof.
  destruct g as [|first rest]; [done|]. intros _. simpl. apply foldl_snoc.
Qed.

Lemma length_mergeByID cs :
  length (mergeByID cs) = length (firstSeen (Client.ID <$> cs)).
Proof. unfold mergeByID. by rewrite length_fmap. Qed.

Lemma lookup_mergeByID cs (i : nat) :
  mergeByID cs !! i =
  (λ id, mergeGroup (group id cs)) <$> firstSeen (Client.ID <$> cs) !! i.
Proof. unfold mergeByID. by rewrite list_lookup_fmap. Qed.

(** A client with an identifier not seen so far is appended. *)
Lemma mergeByID_snoc_new cs c :
  Client.ID c ∉ Client.ID <$> cs → mergeByID (cs ++ [c]) = mergeByID cs ++ [c].
Proof.
  intros Hn. unfold mergeByID.
  rewrite fmap_snoc, firstSeen_snoc, decide_False by done.
  rewrite fmap_app. f_equal.
  - apply list_fmap_ext. intros k id Hk.
    rewrite group_snoc, decide_False, app_nil_r; [done|].
    intros Heq. apply Hn. rewrite Heq. apply elem_of_firstSeen.
    by apply list_elem_of_lookup_2 in Hk.
  - simpl. by rewrite group_snoc, group_nil, decide_True by done.
Qed.

(** A client with an identifier seen before is added to the client at the
    place of that identifier. *)
Lemma mergeByID_snoc_dup cs c (i : nat) :
  firstSeen (Client.ID <$> cs) !! i = Some (Client.ID c) →
  mergeByID (cs ++ [c]) =
  <[i := Client.Add (mergeGroup (group (Client.ID c) cs)) c]> (mergeByID cs).
Proof.
  intros Hi.
  assert (Client.ID c ∈ Client.ID <$> cs) as Hin.
  { apply elem_of_firstSeen. by apply list_elem_of_lookup_2 in Hi. }
  apply list_eq. intros k.
  destruct (decide (k = i)) as [->|Hne].
  - rewrite list_lookup_insert_eq
      by (rewrite length_mergeByID; by apply lookup_lt_Some in Hi).
    rewrite lookup_mergeByID, fmap_snoc, firstSeen_snoc, decide_True by done.
    rewrite Hi. simpl. f_equal.
    rewrite group_snoc, decide_True by done.
    apply mergeGroup_snoc. by apply group_not_nil.
  - rewrite list_lookup_insert_ne by done.
    rewrite !lookup_mergeByID, fmap_snoc, firstSeen_snoc, decide_True by done.
    destruct (firstSeen (Client.ID <$> cs) !! k) as [id|] eqn:Hk; [|done].
    simpl. f_equal. rewrite group_snoc, decide_False, app_nil_r; [done|].
    intros Heq. rewrite <- Heq in Hk.
    by pose proof (NoDup_lookup _ _ _ _ (NoDup_firstSeen _) Hk Hi).
Qed.

(** The loop over the clients of one stream, from any point on: with the
    clients met so far merged and the lookup holding the place of each
    identifier, it ends with all the clients merged. It does not panic. *)
Lemma aggregateClients_from mapper stream rest met clientLookup :
  (∀ id (i : nat),
     clientLookup !! id = Some i ↔ firstSeen (Client.ID <$> met) !! i = Some id) →
  aggregateClients mapper stream rest (mergeByID met) clientLookup =
  Some (mergeByID (met ++ (remap mapper stream <$> rest))).
Proof.
  revert met clientLookup.
  induction rest as [|c rest IH]; intros met lk Hlk.
  - simpl. by rewrite app_nil_r.
  - rewrite fmap_cons. cbn [aggregateClients].
    change (Client.ID (Client.set_ID ?v _)) with v.
    fold (remap mapper stream c).
    change (mapper stream (Client.ID c)) with (Client.ID (remap mapper stream c)).
    set (c' := remap mapper stream c).
    replace (met ++ c' :: (remap mapper stream <$> rest))
      with ((met ++ [c']) ++ (remap mapper stream <$> rest))
      by (by rewrite <- app_assoc).
    destruct (lk !! Client.ID c') as [i|] eqn:Hc.
    + apply Hlk in Hc.
      rewrite lookup_mergeByID, Hc. cbn [fmap option_fmap option_map].
      rewrite <- (mergeByID_snoc_dup met c' i Hc).
      apply IH. intros id k.
      rewrite fmap_snoc, firstSeen_snoc, decide_True; [apply Hlk|].
      apply elem_of_firstSeen. by apply list_elem_of_lookup_2 in Hc.
    + assert (Client.ID c' ∉ Client.ID <$> met) as Hn.
      { intros (k & Hk)%elem_of_firstSeen%list_elem_of_lookup_1.
        apply Hlk in Hk. congruence. }
      rewrite <- (mergeByID_snoc_new met c' Hn).
      apply IH. intros id k.
      rewrite fmap_snoc, firstSeen_snoc, decide_False by done.
      rewrite length_mergeByID.
      destruct (decide (id = Client.ID c')) as [->|Hne].
      * rewrite lookup_insert_eq. split.
        -- intros [= <-]. by rewrite list_lookup_middle.
        -- intros Hk. f_equal.
           destruct (decide (k < length (firstSeen (Client.ID <$> met)))%nat) as [Hlt|Hge].
           ++ rewrite lookup_app_l in Hk by done. apply Hlk in Hk. congruence.
           ++ apply lookup_lt_Some in Hk. rewrite length_app in Hk. simpl in Hk. lia.
      * rewrite lookup_insert_ne by done. rewrite Hlk. split.
        -- intros Hk. rewrite lookup_app_l; [done|]. by apply lookup_lt_Some in Hk.
        -- intros Hk.
           destruct (decide (k < length (firstSeen (Client.ID <$> met)))%nat) as [Hlt|Hge].
           ++ by rewrite lookup_app_l in Hk.
           ++ rewrite lookup_app_r in Hk by lia.
              apply list_lookup_singleton_Some in Hk as [_ ?]. congruence.
Qed.

Lemma aggregateClients_spec mapper stream clients :
  aggregateClients mapper stream clients [] ∅ =
  Some (mergeByID (remap mapper stream <$> clients)).
Proof.
  apply (aggregateClients_from mapper stream clients [] ∅).
  intros id i. rewrite lookup_empty. simpl. by rewrite lookup_nil.
Qed.

Lemma aggregateStreams_spec mapper streams :
  aggregateStreams mapper streams = Some (mergeClients mapper <$> streams).
Proof.
  induction streams as [|st streams IH]; [done|].
  simpl. by rewrite aggregateClients_spec, IH.
Qed.

Lemma aggregateApplications_spec mapper apps :
  aggregateApplications mapper apps = Some (mergeStreams mapper <$> apps).
Proof.
  induction apps as [|app apps IH]; [done|].
  simpl. by rewrite aggregateStreams_spec, IH.
Qed.

(** The mutator of [WithClientMapper] neither panics nor fails, and merges
    the clients of every stream. *)
Lemma WithClientMapper_spec mapper s :
  WithClientMapper mapper s =
  Some (Stats.set_Applications (mergeStreams mapper <$> Stats.Applications s) s, None).
Proof. unfold WithClientMapper. by rewrite aggregateApplications_spec. Qed.

(** *** What [Add] makes of each field along a group *)

Lemma foldl_Add_proj {B} (proj : Client.t → B) (op : B → B → B) :
  (∀ a c, proj (Client.Add a c) = op (proj a) (proj c)) →
  ∀ rest first,
    proj (foldl Client.Add first rest) = foldl op (proj first) (proj <$> rest).
Proof.
  intros Hop. induction rest as [|c rest IH]; intros first; [done|].
  simpl. by rewrite IH, Hop.
Qed.

Lemma foldl_keep {B C} (a : B) (l : list C) : foldl (λ x _, x) a l = a.
Proof. by induction l. Qed.

Lemma foldl_Add_first {B} (proj : Client.t → B) :
  (∀ a c, proj (Client.Add a c) = proj a) →
  ∀ rest first, proj (foldl Client.Add first rest) = proj first.
Proof.
  intros Hop rest first.
  rewrite (foldl_Add_proj proj (λ x _, x)) by done. apply foldl_keep.
Qed.

Lemma foldl_orb {C} (f : C → bool) (l : list C) (b : bool) :
  foldl orb b (f <$> l) = b || existsb f l.
Proof.
  revert b. induction l as [|c l IH]; intros b; simpl.
  - by rewrite orb_false_r.
  - by rewrite IH, orb_assoc.
Qed.

Lemma Add_Uptime a c :
  Client.Uptime (Client.Add a c) = Z.max (Client.Uptime a) (Client.Uptime c).
Proof. simpl. destruct (Z.ltb_spec (Client.Uptime a) (Client.Uptime c)); lia. Qed.

Lemma Add_Timestamp a c :
  Client.Timestamp (Client.Add a c) = Z.max (Client.Timestamp a) (Client.Timestamp c).
Proof.
  simpl. destruct (Z.ltb_spec (Client.Timestamp a) (Client.Timestamp c)); lia.
Qed.

Lemma foldl_Add_mergedFields first rest :
  mergedFields first rest (foldl Client.Add first rest).
Proof.
  split.
  - by apply (foldl_Add_first Client.ID).
  - by apply (foldl_Add_first Client.Address).
  - by apply (foldl_Add_first Client.FlashVersion).
  - by apply (foldl_Add_first Client.PageURL).
  - by apply (foldl_Add_first Client.SWFURL).
  - by apply (foldl_Add_first Client.AVSync).
  - apply (foldl_Add_proj Client.Uptime Z.max), Add_Uptime.
  - apply (foldl_Add_proj Client.Timestamp Z.max), Add_Timestamp.
  - rewrite (foldl_Add_proj Client.Active orb) by done. apply foldl_orb.
  - rewrite (foldl_Add_proj Client.Publishing orb) by done. apply foldl_orb.
  - rewrite (foldl_Add_proj Client.DroppedFrames add64) by done.
    apply foldl_add64_wrap.
  - intros Hr. rewrite (foldl_Add_proj Client.DroppedFrames add64) by done.
    by apply foldl_add64_exact.
  - rewrite (foldl_Add_proj Client.EntriesCount add64) by done.
    apply foldl_add64_wrap.
  - intros Hr. rewrite (foldl_Add_proj Client.EntriesCount add64) by done.
    by apply foldl_add64_exact.
Qed.

Lemma lookup_mergeClients mapper (s : Stats.t) (i j : nat) app stream :
  Stats.Applications s !! i = Some app →
  Application.Streams app !! j = Some stream →
  ∃ s' app' stream',
    WithClientMapper mapper s = Some (s', None) ∧
    Stats.Applications s' !! i = Some app' ∧
    Application.Streams app' !! j = Some stream' ∧
    Stream.Clients stream' =
      mergeByID (remap mapper (Stream.Name stream) <$> Stream.Clients stream).
Proof.
  intros Hi Hj. eexists _, (mergeStreams mapper app), (mergeClients mapper stream).
  split; [apply WithClientMapper_spec|]. split_and!.
  - simpl. by rewrite list_lookup_fmap, Hi.
  - simpl. by rewrite list_lookup_fmap, Hj.
  - done.
Qed.

(** C2: in every stream the mutator of [WithClientMapper] leaves one client
    per new identifier, in the order the identifiers were first produced;
    the client of an identifier is the first client that got it with every
    later one folded in by [Add], in encounter order: it keeps the first
    client's address, player version, page URL, source URL and AV-sync
    offset, its uptime and timestamp are the maxima, its flags the
    disjunctions, and its dropped frames and entries count the sums (the
    exact ones whenever they fit an [int]). *)
Theorem WithClientMapper_merges mapper (s : Stats.t) (i j : nat) app stream :
  Stats.Applications s !! i = Some app →
  Application.Streams app !! j = Some stream →
  ∃ s' app' stream',
    WithClientMapper mapper s = Some (s', None) ∧
    Stats.Applications s' !! i = Some app' ∧
    Application.Streams app' !! j = Some stream' ∧
    let renamed := remap mapper (Stream.Name stream) <$> Stream.Clients stream in
    let ids := firstSeen (Client.ID <$> renamed) in
    length (Stream.Clients stream') = length ids ∧
    ∀ (k : nat) id, ids !! k = Some id →
      ∃ first rest out,
        group id renamed = first :: rest ∧
        Stream.Clients stream' !! k = Some out ∧
        out = foldl Client.Add first rest ∧
        Client.ID out = id ∧
        mergedFields first rest out.
Proof.
  intros Hi Hj.
  destruct (lookup_mergeClients mapper s i j app stream Hi Hj)
    as (s' & app' & stream' & Hs & Hi' & Hj' & Hc).
  exists s', app', stream'. split_and!; [done..|]. simpl. rewrite Hc. split.
  - apply length_mergeByID.
  - intros k id Hk.
    set (renamed := remap mapper (Stream.Name stream) <$> Stream.Clients stream) in *.
    destruct (group id renamed) as [|first rest] eqn:Hg.
    { exfalso. apply (group_not_nil id renamed); [|done].
      apply elem_of_firstSeen. by apply list_elem_of_lookup_2 in Hk. }
    exists first, rest, (foldl Client.Add first rest). split_and!.
    + done.
    + by rewrite lookup_mergeByID, Hk; simpl; rewrite Hg.
    + done.
    + rewrite (foldl_Add_first Client.ID) by done.
      assert (first ∈ group id renamed) as Hin by (rewrite Hg; by left).
      by apply list_elem_of_filter in Hin as [? _].
    + apply foldl_Add_mergedFields.
Qed.

Lemma WithClientMapper_merges_witness :
  ∃ s' app' stream',
    WithClientMapper combineSums (testClients 0 0) = Some (s', None) ∧
    Stats.Applications s' !! 0%nat = Some app' ∧
    Application.Streams app' !! 0%nat = Some stream' ∧
    length (Stream.Clients stream') = 2%nat.
Proof.
  destruct (WithClientMapper_merges combineSums (testClients 0 0) 0 0
              (Application.mk ""
                 [Stream.set_NumClients 0
                    (Stream.set_Clients [sumA 0; otherA 0; sumB 0]
                       (streamNamed "stream"))])
              (Stream.set_NumClients 0
                 (Stream.set_Clients [sumA 0; otherA 0; sumB 0]
                    (streamNamed "stream")))
              eq_refl eq_refl)
    as (s' & app' & stream' & H1 & H2 & H3 & H4 & _).
  exists s', app', stream'. exact (conj H1 (conj H2 (conj H3 H4))).
Defined.

(** [TestWithClientMapper]: [sum_a] and [sum_b] become one client [sum],
    ahead of [other_a]. *)
Example WithClientMapper_test :
  WithClientMapper combineSums (testClients 0 0) =
  Some (statsOf [Application.mk ""
                   [Stream.set_Clients
                      [ Client.mk "sum" "127.0.0.1" Minute "1" "http://localhost/watch"
                          "https://swf" 250 (-12) Minute true false 0;
                        otherA 0 ]
                      (streamNamed "stream")]],
        None).
Proof. reflexivity. Qed.

(** *** The entries count *)

Lemma sumZ_app l1 l2 : sumZ (l1 ++ l2) = sumZ l1 + sumZ l2.
Proof. unfold sumZ. induction l1 as [|x l1 IH]; simpl; lia. Qed.

Lemma sumZ_insert (l : list Z) (i : nat) x y :
  l !! i = Some x → sumZ (<[i := y]> l) = sumZ l - x + y.
Proof.
  revert i. induction l as [|z l IH]; intros [|i] Hi; simplify_eq/=.
  - unfold sumZ. simpl. lia.
  - specialize (IH i Hi). unfold sumZ in *. simpl. lia.
Qed.

Lemma sumZ_lookup_le (l : list Z) (i : nat) x :
  Forall (λ z, 0 ≤ z) l → l !! i = Some x → 0 ≤ x ≤ sumZ l.
Proof.
  intros Hall. revert i. induction Hall as [|z l Hz Hall IH]; intros [|i] Hi;
    simplify_eq/=.
  - assert (0 ≤ sumZ l).
    { clear IH. induction Hall as [|? ? ? ? IH']; unfold sumZ in *; simpl; lia. }
    unfold sumZ in *. simpl. lia.
  - specialize (IH i Hi). unfold sumZ in *. simpl. lia.
Qed.

Lemma sumZ_ones (l : list Z) : Forall (λ z, z = 1) l → sumZ l = Z.of_nat (length l).
Proof.
  induction 1 as [|z l -> Hall IH]; [done|]. unfold sumZ in *. simpl length.
  rewrite Nat2Z.inj_succ. simpl. lia.
Qed.

Lemma mergeByID_EntriesCount cs :
  Forall (λ c, 0 ≤ Client.EntriesCount c) cs →
  sumZ (Client.EntriesCount <$> cs) ≤ MaxInt64 →
  Forall (λ c, 0 ≤ Client.EntriesCount c) (mergeByID cs) ∧
  sumZ (Client.EntriesCount <$> mergeByID cs) = sumZ (Client.EntriesCount <$> cs).
Proof.
  induction cs as [|c cs IH] using rev_ind; [by split; [constructor|]|].
  rewrite Forall_app, Forall_singleton, fmap_snoc, sumZ_app. intros [Hcs Hc] Hsum.
  assert (sumZ [Client.EntriesCount c] = Client.EntriesCount c) as Hone
    by (unfold sumZ; simpl; lia).
  rewrite Hone in *.
  destruct IH as [IH1 IH2]; [done|lia|].
  destruct (decide (Client.ID c ∈ Client.ID <$> cs)) as [Hin|Hn].
  - apply elem_of_firstSeen, list_elem_of_lookup_1 in Hin as [i Hi].
    rewrite (mergeByID_snoc_dup cs c i Hi).
    assert (mergeByID cs !! i = Some (mergeGroup (group (Client.ID c) cs))) as Hacc
      by (by rewrite lookup_mergeByID, Hi).
    set (acc := mergeGroup (group (Client.ID c) cs)) in *.
    assert (0 ≤ Client.EntriesCount acc ≤ sumZ (Client.EntriesCount <$> mergeByID cs))
      as Hle.
    { apply (sumZ_lookup_le _ i).
      - by apply Forall_fmap.
      - by rewrite list_lookup_fmap, Hacc. }
    assert (Client.EntriesCount (Client.Add acc c)
            = Client.EntriesCount acc + Client.EntriesCount c) as Hadd.
    { simpl. apply wrap64_id. unfold inInt64, MinInt64, MaxInt64 in *. lia. }
    split.
    + apply Forall_insert; [done|]. rewrite Hadd. lia.
    + rewrite list_fmap_insert, (sumZ_insert _ i (Client.EntriesCount acc))
        by (by rewrite list_lookup_fmap, Hacc).
      rewrite Hadd. lia.
  - rewrite (mergeByID_snoc_new cs c Hn). split.
    + apply Forall_app. split; [done|]. by apply Forall_singleton.
    + rewrite fmap_snoc, sumZ_app, Hone. lia.
Qed.

(** In [int] arithmetic the sum of the entries counts is kept whatever the
    counts are. *)
Lemma mergeByID_EntriesCount_int cs :
  wrap64 (sumZ (Client.EntriesCount <$> mergeByID cs))
    = wrap64 (sumZ (Client.EntriesCount <$> cs)).
Proof.
  induction cs as [|c cs IH] using rev_ind; [done|].
  assert (sumZ [Client.EntriesCount c] = Client.EntriesCount c) as Hone
    by (unfold sumZ; simpl; lia).
  rewrite (fmap_snoc _ cs), (sumZ_app _ [_]), Hone.
  destruct (decide (Client.ID c ∈ Client.ID <$> cs)) as [Hin|Hn].
  - apply elem_of_firstSeen, list_elem_of_lookup_1 in Hin as [i Hi].
    rewrite (mergeByID_snoc_dup cs c i Hi).
    assert (mergeByID cs !! i = Some (mergeGroup (group (Client.ID c) cs))) as Hacc
      by (by rewrite lookup_mergeByID, Hi).
    set (acc := mergeGroup (group (Client.ID c) cs)) in *.
    rewrite list_fmap_insert, (sumZ_insert _ i (Client.EntriesCount acc))
      by (by rewrite list_lookup_fmap, Hacc).
    change (Client.EntriesCount (Client.Add acc c))
      with (wrap64 (Client.EntriesCount acc + Client.EntriesCount c)).
    rewrite wrap64_add_r.
    replace (sumZ (Client.EntriesCount <$> mergeByID cs) - Client.EntriesCount acc
             + (Client.EntriesCount acc + Client.EntriesCount c))
      with (sumZ (Client.EntriesCount <$> mergeByID cs) + Client.EntriesCount c)
      by lia.
    by apply wrap64_add_congr.
  - rewrite (mergeByID_snoc_new cs c Hn), fmap_snoc, sumZ_app, Hone.
    by apply wrap64_add_congr.
Qed.

Lemma length_group_le id cs : (length (group id cs) ≤ length cs)%nat.
Proof. apply length_filter. Qed.

Lemma mergeByID_count cs out :
  Forall (λ c, Client.EntriesCount c = 1) cs →
  Z.of_nat (length cs) ≤ MaxInt64 →
  out ∈ mergeByID cs →
  Client.EntriesCount out = Z.of_nat (length (group (Client.ID out) cs)).
Proof.
  intros Hone Hlen (id & -> & Hid)%list_elem_of_fmap.
  destruct (group id cs) as [|first rest] eqn:Hg.
  { exfalso. apply (group_not_nil id cs); [|done]. by apply elem_of_firstSeen. }
  assert (Forall (λ z, z = 1) (Client.EntriesCount <$> first :: rest)) as Hones.
  { apply Forall_fmap. rewrite <- Hg. unfold group.
    apply Forall_forall. intros c [_ Hc]%list_elem_of_filter.
    rewrite Forall_forall in Hone. by apply Hone. }
  pose proof (length_group_le id cs) as Hl. rewrite Hg in Hl.
  assert (Client.ID (mergeGroup (first :: rest)) = id) as Hout.
  { simpl. rewrite (foldl_Add_first Client.ID) by done.
    assert (first ∈ group id cs) as Hin by (rewrite Hg; by left).
    by apply list_elem_of_filter in Hin as [? _]. }
  rewrite Hout, Hg.
  pose proof (sumZ_ones _ Hones) as Hs. rewrite length_fmap in Hs.
  rewrite <- Hs.
  apply (merged_EntriesCount first rest); [apply foldl_Add_mergedFields|].
  rewrite Hs. unfold inInt64, MinInt64, MaxInt64 in *. lia.
Qed.

Lemma remap_EntriesCount mapper stream (cs : list Client.t) :
  Client.EntriesCount <$> (remap mapper stream <$> cs) = Client.EntriesCount <$> cs.
Proof. rewrite <- list_fmap_compose. by apply list_fmap_ext. Qed.

(** C9: the mutator of [WithClientMapper] keeps the sum of the entries
    counts of every stream: in [int] arithmetic always, and as a sum of
    integers in every stream whose entries counts are not negative and add
    up to an [int] (as those of decoded clients do).  When every client
    enters with an entries count of 1, each client it leaves counts the
    clients that got its identifier, and the counts add up to the number of
    clients that entered. *)
Theorem WithClientMapper_EntriesCount mapper (s : Stats.t) (i j : nat) app stream :
  Stats.Applications s !! i = Some app →
  Application.Streams app !! j = Some stream →
  ∃ s' app' stream',
    WithClientMapper mapper s = Some (s', None) ∧
    Stats.Applications s' !! i = Some app' ∧
    Application.Streams app' !! j = Some stream' ∧
    wrap64 (sumZ (Client.EntriesCount <$> Stream.Clients stream'))
      = wrap64 (sumZ (Client.EntriesCount <$> Stream.Clients stream)) ∧
    (Forall (λ c, 0 ≤ Client.EntriesCount c) (Stream.Clients stream) →
     sumZ (Client.EntriesCount <$> Stream.Clients stream) ≤ MaxInt64 →
     sumZ (Client.EntriesCount <$> Stream.Clients stream')
       = sumZ (Client.EntriesCount <$> Stream.Clients stream)) ∧
    (Forall (λ c, Client.EntriesCount c = 1) (Stream.Clients stream) →
     Z.of_nat (length (Stream.Clients stream)) ≤ MaxInt64 →
     sumZ (Client.EntriesCount <$> Stream.Clients stream')
       = Z.of_nat (length (Stream.Clients stream)) ∧
     ∀ out, out ∈ Stream.Clients stream' →
       Client.EntriesCount out =
       Z.of_nat (length (group (Client.ID out)
                           (remap mapper (Stream.Name stream) <$> Stream.Clients stream)))).
Proof.
  intros Hi Hj.
  destruct (lookup_mergeClients mapper s i j app stream Hi Hj)
    as (s' & app' & stream' & Hs & Hi' & Hj' & Hc).
  exists s', app', stream'. split_and!; [done..| | |]; rewrite Hc.
  all: set (renamed := remap mapper (Stream.Name stream) <$> Stream.Clients stream).
  all: pose proof (remap_EntriesCount mapper (Stream.Name stream) (Stream.Clients stream))
         as Hren; fold renamed in Hren.
  - by rewrite mergeByID_EntriesCount_int, Hren.
  - intros Hpos Hsum.
    assert (Forall (λ c, 0 ≤ Client.EntriesCount c) renamed) as HposR
      by (apply Forall_fmap; by apply (Forall_impl _ _ _ Hpos)).
    assert (sumZ (Client.EntriesCount <$> renamed) ≤ MaxInt64) as HsumR
      by (by rewrite Hren).
    destruct (mergeByID_EntriesCount renamed HposR HsumR) as [_ Heq].
    by rewrite Heq, Hren.
  - intros Hone Hmax.
    assert (sumZ (Client.EntriesCount <$> Stream.Clients stream)
            = Z.of_nat (length (Stream.Clients stream))) as Hlen
      by (rewrite sumZ_ones by (by apply Forall_fmap); by rewrite length_fmap).
    assert (Forall (λ c, 0 ≤ Client.EntriesCount c) renamed) as HposR.
    { apply Forall_fmap. apply (Forall_impl _ _ _ Hone). intros c Hc1. simpl in *. lia. }
    assert (sumZ (Client.EntriesCount <$> renamed) ≤ MaxInt64) as HsumR
      by (rewrite Hren, Hlen; done).
    destruct (mergeByID_EntriesCount renamed HposR HsumR) as [_ Heq].
    split; [by rewrite Heq, Hren|].
    intros out Hout. apply mergeByID_count; [| |done].
    + apply Forall_fmap. by apply (Forall_impl _ _ _ Hone).
    + unfold renamed. by rewrite length_fmap.
Qed.

Lemma WithClientMapper_EntriesCount_witness :
  ∃ s' app' stream',
    WithClientMapper combineSums (testClients 1 3) = Some (s', None) ∧
    Stats.Applications s' !! 0%nat = Some app' ∧
    Application.Streams app' !! 0%nat = Some stream' ∧
    sumZ (Client.EntriesCount <$> Stream.Clients stream') = 3.
Proof.
  destruct (WithClientMapper_EntriesCount combineSums (testClients 1 3) 0 0
              (Application.mk ""
                 [Stream.set_NumClients 3
                    (Stream.set_Clients [sumA 1; otherA 1; sumB 1]
                       (streamNamed "stream"))])
              (Stream.set_NumClients 3
                 (Stream.set_Clients [sumA 1; otherA 1; sumB 1]
                    (streamNamed "stream")))
              eq_refl eq_refl)
    as (s' & app' & stream' & H1 & H2 & H3 & _ & H4 & _).
  exists s', app', stream'. split; [exact H1|]. split; [exact H2|].
  split; [exact H3|]. apply H4.
  - repeat constructor; simpl; lia.
  - vm_compute. discriminate.
Defined.

(** *** What the client mapper leaves alone *)

(** C10: the mutator of [WithClientMapper] changes the [Clients] of the
    streams and nothing else: every other field of every stream,
    [NumClients] among them, every field of every application but its
    streams, and every field of the [Stats] but its applications are as they
    were.  So [NumClients] can exceed the number of clients left: it does in
    the stream of [TestWithClientMapper] when it counts its three clients. *)
Theorem WithClientMapper_frame :
  (∀ mapper s, ∃ s',
     WithClientMapper mapper s = Some (s', None) ∧
     s' = Stats.set_Applications (Stats.Applications s') s ∧
     Forall2 (λ app app',
                app' = Application.set_Streams (Application.Streams app') app ∧
                Forall2 (λ stream stream',
                           stream' = Stream.set_Clients (Stream.Clients stream') stream ∧
                           Stream.NumClients stream' = Stream.NumClients stream)
                        (Application.Streams app) (Application.Streams app'))
             (Stats.Applications s) (Stats.Applications s')) ∧
  (∃ s' app' stream',
     WithClientMapper combineSums (testClients 1 3) = Some (s', None) ∧
     Stats.Applications s' !! 0%nat = Some app' ∧
     Application.Streams app' !! 0%nat = Some stream' ∧
     Stream.NumClients stream' = 3 ∧
     length (Stream.Clients stream') = 2%nat).
Proof.
  split.
  - intros mapper s. eexists. split; [apply WithClientMapper_spec|]. split.
    + by destruct s.
    + simpl. apply Forall2_fmap_r, Forall_Forall2_diag, Forall_forall.
      intros app _. split; [by destruct app|].
      simpl. apply Forall2_fmap_r, Forall_Forall2_diag, Forall_forall.
      intros stream _. split; [by destruct stream|done].
  - eexists _, _, _. split; [reflexivity|]. by split_and!.
Qed.

(** ** The collector *)

Lemma findPublisher_spec clients :
  isPublisherID clients (Client.ID (findPublisher clients Client.zero)).
Proof.
  induction clients as [|c clients IH]; simpl.
  - right. by split; [constructor|].
  - destruct (Client.Publishing c) eqn:Hc.
    + left. exists [], c, clients. by split_and!; [|constructor| |].
    + destruct IH as [(pre & x & post & -> & Hpre & Hx & Hid)|[Hall Hid]].
      * left. exists (c :: pre), x, post. by split_and!; [|constructor| |].
      * right. by split; [constructor|].
Qed.

Lemma elem_of_concat {A} (ls : list (list A)) (x : A) :
  x ∈ concat ls ↔ ∃ l, x ∈ l ∧ l ∈ ls.
Proof.
  induction ls as [|l0 ls IH]; simpl.
  - split; [by intros ?%elem_of_nil|]. by intros (l & _ & ?%elem_of_nil).
  - rewrite elem_of_app, IH. split.
    + intros [Hx|(l & Hx & Hl)].
      * exists l0. split; [done|by left].
      * exists l. split; [done|by right].
    + intros (l & Hx & [->|Hl]%elem_of_cons); [by left|right; by exists l].
Qed.

Lemma elem_of_collectStreams s m :
  m ∈ collectStreams s ↔
  ∃ app stream,
    app ∈ Stats.Applications s ∧ stream ∈ Application.Streams app ∧
    m ∈ streamMetrics app stream.
Proof.
  unfold collectStreams. rewrite elem_of_concat. split.
  - intros (ms & Hm & (app & -> & Happ)%list_elem_of_fmap).
    apply elem_of_concat in Hm as (ms' & Hm & (stream & -> & Hst)%list_elem_of_fmap).
    by exists app, stream.
  - intros (app & stream & Happ & Hst & Hm). eexists. split.
    + apply elem_of_concat. eexists. split; [exact Hm|].
      by apply list_elem_of_fmap_2.
    + by apply (list_elem_of_fmap_2
                  (λ app, concat (streamMetrics app <$> Application.Streams app))).
Qed.

(** C8: every metric [Collect] sends for a stream of the tree carries, after
    the names of the application and of the stream, the identifier of the
    first client of the stream whose publishing flag is set, or the empty
    identifier when no client publishes. *)
Theorem Collect_publisher (s : Stats.t) app stream m :
  app ∈ Stats.Applications s →
  stream ∈ Application.Streams app →
  m ∈ streamMetrics app stream →
  m ∈ collectStreams s ∧
  ∃ id,
    take 3 (labelValues m) = [Application.Name app; Stream.Name stream; id] ∧
    isPublisherID (Stream.Clients stream) id.
Proof.
  intros Happ Hst Hm. split.
  - apply elem_of_collectStreams. by exists app, stream.
  - exists (Client.ID (findPublisher (Stream.Clients stream) Client.zero)).
    split; [|apply findPublisher_spec].
    unfold streamMetrics in Hm.
    repeat (apply elem_of_cons in Hm as [->|Hm]; [done|]).
    by apply elem_of_nil in Hm.
Qed.

Lemma Collect_publisher_witness :
  ∃ id,
    take 3 (labelValues (mkMetric "rtmp_stream_current_clients" ["app"; "live"; "B"]))
      = ["app"; "live"; id] ∧
    isPublisherID [viewer "A" false; viewer "B" true; viewer "C" true] id.
Proof.
  destruct (Collect_publisher
              (statsOf [Application.mk "app" [publisherExample]])
              (Application.mk "app" [publisherExample]) publisherExample
              (mkMetric "rtmp_stream_current_clients" ["app"; "live"; "B"]))
    as [_ H].
  - by left.
  - by left.
  - do 5 right. by left.
  - exact H.
Defined.

(** The publisher example: [B] is reported, not [C]. *)
Example findPublisher_example :
  Client.ID (findPublisher (Stream.Clients publisherExample) Client.zero) = "B".
Proof. reflexivity. Qed.

(** ** Decoding *)

(** *** The struct decoder *)

Lemma Node_nested_ind (P : Node → Prop) :
  (∀ text, P (CharData text)) →
  (∀ local body, Forall P body → P (Element local body)) →
  ∀ t, P t.
Proof.
  intros HC HE. fix IH 1. intros [text|local body]; [apply HC|].
  apply HE. induction body as [|t body IHb]; constructor; [apply IH|apply IHb].
Qed.

Lemma bind_Ok {A B} (m : M A) (k : A → M B) d b d' :
  bind m k d = Ok (b, d') ↔ ∃ a d0, m d = Ok (a, d0) ∧ k a d0 = Ok (b, d').
Proof.
  unfold bind. destruct (m d) as [[a d0]|e]; split.
  - intros H. by exists a, d0.
  - by intros (? & ? & [= <- <-] & ?).
  - done.
  - by intros (? & ? & ? & _).
Qed.

Lemma ret_Ok {A} (a b : A) d d' : ret a d = Ok (b, d') ↔ a = b ∧ d = d'.
Proof. unfold ret. naive_solver. Qed.

Lemma lift_Ok {A} (r : result A) (a : A) d d' :
  lift r d = Ok (a, d') ↔ r = Ok a ∧ d = d'.
Proof. unfold lift. destruct r; naive_solver. Qed.

Lemma foldM_inv {A T} (f : A → T → M T) (P : T → Prop) (l : list A) :
  Forall (λ a, ∀ s d s' d', P s → f a s d = Ok (s', d') → P s') l →
  ∀ s d s' d', P s → foldM f l s d = Ok (s', d') → P s'.
Proof.
  induction 1 as [|a l Ha _ IH]; intros s d s' d' Hs; simpl.
  - by intros [<- _]%ret_Ok.
  - intros (s1 & d1 & H1 & H2)%bind_Ok. eauto.
Qed.

Lemma scanFields_Perfect {T} (fields : list (fieldInfo T)) ps local f :
  scanFields fields ps local = Perfect f →
  f ∈ fields ∧ length (parents f) = length ps ∧ name f = local.
Proof.
  induction fields as [|g fields IH]; simpl; [done|].
  repeat case_match; intros Heq; simplify_eq.
  - destruct (IH Heq) as (? & ? & ?). split_and!; [by right|done..].
  - repeat match goal with
           | H : _ && _ = true |- _ => apply andb_true_iff in H as [? ?]
           | H : bool_decide _ = true |- _ => apply bool_decide_eq_true in H
           end.
    split_and!; [by left|done..].
  - destruct (IH Heq) as (? & ? & ?). split_and!; [by right|done..].
Qed.

Lemma scanFields_Prefix {T} (fields : list (fieldInfo T)) ps local ps' :
  scanFields fields ps local = Prefix ps' → length ps' = S (length ps).
Proof.
  induction fields as [|g fields IH]; simpl; [done|].
  repeat case_match; intros Heq; simplify_eq; [by apply IH| |by apply IH].
  repeat match goal with
         | H : _ && _ = true |- _ => apply andb_true_iff in H as [? ?]
         | H : bool_decide _ = true |- _ => apply bool_decide_eq_true in H
         end.
  rewrite length_take. lia.
Qed.

(** Below the element path [ps] only the fields with a path at least as long
    are decoded into: an invariant they keep is kept. *)
Lemma unmarshalPath_inv {T} (fields : list (fieldInfo T)) (P : T → Prop) (n : nat) :
  (∀ f, f ∈ fields → (n ≤ length (parents f))%nat → preserves P f) →
  ∀ t ps sv d c sv' d',
    (n ≤ length ps)%nat → P sv →
    unmarshalPath fields ps t sv d = Ok ((c, sv'), d') → P sv'.
Proof.
  intros Hf. induction t as [text|local body IH] using Node_nested_ind;
    intros ps sv d c sv' d' Hn Hsv; simpl.
  - by intros [[= _ <-] _]%ret_Ok.
  - destruct (scanFields fields ps local) as [f|ps'|] eqn:Hscan.
    + intros (sv1 & d1 & H1 & [[= _ <-] _]%ret_Ok)%bind_Ok.
      apply scanFields_Perfect in Hscan as (Hin & Hlen & _).
      apply (Hf f Hin ltac:(lia) body sv d sv1 d1 Hsv H1).
    + intros (sv1 & d1 & H1 & [[= _ <-] _]%ret_Ok)%bind_Ok.
      apply scanFields_Prefix in Hscan.
      revert H1. apply foldM_inv; [|done].
      apply (Forall_impl _ _ _ IH). intros [text|local' body'] IHt s0 d0 s1 d2 Hs0.
      * by intros [<- _]%ret_Ok.
      * intros ([c1 s2] & d3 & H1 & [<- _]%ret_Ok)%bind_Ok.
        apply (IHt ps' s0 d0 c1 s2 d3 ltac:(lia) Hs0 H1).
    + by intros [[= _ <-] _]%ret_Ok.
Qed.

Lemma decodeStruct_inv {T} (fields : list (fieldInfo T)) (P : T → Prop) :
  Forall (preserves P) fields →
  ∀ body sv d sv' d',
    P sv → decodeStruct fields body sv d = Ok (sv', d') → P sv'.
Proof.
  intros Hf body. unfold decodeStruct. apply foldM_inv.
  apply Forall_forall. intros [text|local' body'] _ s0 d0 s1 d2 Hs0.
  - by intros [<- _]%ret_Ok.
  - intros ([c1 s2] & d3 & H1 & [<- _]%ret_Ok)%bind_Ok.
    refine (unmarshalPath_inv fields P 0 _ _ [] s0 d0 c1 s2 d3 _ Hs0 H1);
      [|simpl; lia].
    intros f Hin _. rewrite Forall_forall in Hf. by apply Hf.
Qed.



(** *** Fields by kind *)

Lemma stringField_inv {T} ps n (set : string → T → T) body sv d sv' d' :
  unmarshalField (stringField ps n set) body sv d = Ok (sv', d') →
  ∃ v, sv' = set v sv.
Proof.
  intros (v & d0 & _ & [<- _]%ret_Ok)%bind_Ok. by exists v.
Qed.

Lemma intField_inv {T} ps n (set : Z → T → T) body sv d sv' d' :
  unmarshalField (intField ps n set) body sv d = Ok (sv', d') →
  ∃ v, copyInt (chardata body) = Ok v ∧ sv' = set v sv.
Proof.
  intros (v & d0 & [Hv _]%lift_Ok & [<- _]%ret_Ok)%bind_Ok. by exists v.
Qed.

Lemma floatField_inv `{Library} {T} ps n (set : float64 → T → T) body sv d sv' d' :
  unmarshalField (floatField ps n set) body sv d = Ok (sv', d') →
  ∃ v, sv' = set v sv.
Proof.
  intros (v & d0 & _ & [<- _]%ret_Ok)%bind_Ok. by exists v.
Qed.

Lemma unmarshalerField_inv {T A} ps n (U : list Node → M A) (set : A → T → T)
    body sv d sv' d' :
  unmarshalField (unmarshalerField ps n U set) body sv d = Ok (sv', d') →
  ∃ v, U body d = Ok (v, d') ∧ sv' = set v sv.
Proof.
  intros (v & d0 & Hv & [<- <-]%ret_Ok)%bind_Ok. by exists v.
Qed.

Lemma sliceField_inv {T A} ps n (U : list Node → M A) (get : T → list A)
    (set : list A → T → T) body sv d sv' d' :
  unmarshalField (sliceField ps n U get set) body sv d = Ok (sv', d') →
  ∃ v, U body d = Ok (v, d') ∧ sv' = set (get sv ++ [v]) sv.
Proof.
  intros (v & d0 & Hv & [<- <-]%ret_Ok)%bind_Ok. by exists v.
Qed.

Ltac invert_field H :=
  first
    [ apply stringField_inv in H as (? & ->)
    | apply intField_inv in H as (? & ? & ->)
    | apply floatField_inv in H as (? & ->)
    | apply unmarshalerField_inv in H as (? & ? & ->)
    | apply sliceField_inv in H as (? & ? & ->) ].



(** *** The scalar adapters *)



Lemma decodeStruct_text {T} (fields : list (fieldInfo T)) body sv d :
  Forall (λ t, ∃ text, t = CharData text) body →
  decodeStruct fields body sv d = Ok (sv, d).
Proof.
  unfold decodeStruct. induction 1 as [|t body [text ->] _ IH]; [done|].
  simpl. unfold bind at 1. simpl. exact IH.
Qed.

(** Character data inside the element leaves the decoder as it was. *)
Lemma Boolean_UnmarshalXML_text body d :
  Forall (λ t, ∃ text, t = CharData text) body →
  Boolean_UnmarshalXML body d = Ok (true, d).
Proof.
  intros Hb. unfold Boolean_UnmarshalXML, bind.
  by rewrite (decodeStruct_text DecoderFields body tt d Hb).
Qed.

(** *** The server uptime *)






(** *** The presence booleans *)



(** C5 at three client records.  [<active/>] sets the flag and leaves the
    decoder alone.  The body of the tag is decoded into the decoder itself:
    [<active><Strict>false</Strict><AutoClose>address</AutoClose></active>]
    sets the flag and leaves a decoder that is no longer strict and closes
    [address] elements on its own, and
    [<active><Strict>maybe</Strict></active>] fails the record. *)
Lemma Boolean_body_reaches_decoder :
  (∃ c,
     Client.UnmarshalXML [Element "active" []] NewDecoder = Ok (c, NewDecoder) ∧
     Client.Active c = true) ∧
  (∃ c d',
     Client.UnmarshalXML
       [Element "active" [ Element "Strict" [CharData "false"];
                           Element "AutoClose" [CharData "address"] ]]
       NewDecoder = Ok (c, d') ∧
     Client.Active c = true ∧
     Strict d' = false ∧ AutoClose d' = ["address"]) ∧
  Client.UnmarshalXML [Element "active" [Element "Strict" [CharData "maybe"]]]
    NewDecoder = Err (ErrSyntax "ParseBool" "maybe").
Proof.
  split_and!.
  - eexists. split; [vm_compute; reflexivity|reflexivity].
  - eexists _, _. split_and!; [vm_compute; reflexivity|reflexivity..].
  - reflexivity.
Qed.

(** *** The entries count of a decoded client *)

Lemma Client_UnmarshalXML_EntriesCount body d c d' :
  Client.UnmarshalXML body d = Ok (c, d') → Client.EntriesCount c = 1.
Proof. by intros (sv & d0 & _ & [<- _]%ret_Ok)%bind_Ok. Qed.

Ltac preserved_entry tac :=
  let Hf := fresh "Hf" in
  let HP := fresh "HP" in
  cbn beta; intros ? ? ? ? ? HP Hf; invert_field Hf; first [exact HP | tac HP].

Ltac preserved_table tac :=
  repeat first [ apply Forall_nil_2 | apply Forall_cons_2; [preserved_entry tac|] ].

Lemma Stream_UnmarshalXML_EntriesCount `{Library} body d st d' :
  Stream.UnmarshalXML body d = Ok (st, d') →
  Forall (λ c, Client.EntriesCount c = 1) (Stream.Clients st).
Proof.
  intros (sv & d0 & Hdec & [<- _]%ret_Ok)%bind_Ok. simpl.
  revert Hdec.
  apply (decodeStruct_inv Stream.fields
           (λ sv, Forall (λ c, Client.EntriesCount c = 1)
                         (Stream.Clients (Stream.plain sv)))); [|constructor].
  unfold Stream.fields.
  preserved_table ltac:(fun HP =>
    simpl; apply Forall_app; split; [exact HP|];
    apply Forall_singleton; by eapply Client_UnmarshalXML_EntriesCount).
Qed.

Lemma Application_decode_EntriesCount `{Library} body d app d' :
  Application.decode body d = Ok (app, d') →
  Forall (λ st, Forall (λ c, Client.EntriesCount c = 1) (Stream.Clients st))
         (Application.Streams app).
Proof.
  unfold Application.decode.
  apply (decodeStruct_inv Application.fields
           (λ a, Forall (λ st, Forall (λ c, Client.EntriesCount c = 1)
                                      (Stream.Clients st))
                        (Application.Streams a))); [|constructor].
  unfold Application.fields.
  preserved_table ltac:(fun HP =>
    simpl; apply Forall_app; split; [exact HP|];
    apply Forall_singleton; by eapply Stream_UnmarshalXML_EntriesCount).
Qed.

Lemma Stats_UnmarshalXML_EntriesCount `{Library} body d s d' :
  Stats.UnmarshalXML body d = Ok (s, d') →
  Forall (λ app,
            Forall (λ st, Forall (λ c, Client.EntriesCount c = 1) (Stream.Clients st))
                   (Application.Streams app))
         (Stats.Applications s).
Proof.
  intros (sv & d0 & Hdec & [<- _]%ret_Ok)%bind_Ok. simpl.
  revert Hdec.
  apply (decodeStruct_inv Stats.fields
           (λ sv, Forall (λ app,
                            Forall (λ st, Forall (λ c, Client.EntriesCount c = 1)
                                                 (Stream.Clients st))
                                   (Application.Streams app))
                         (Stats.Applications (Stats.plain sv)))); [|constructor].
  unfold Stats.fields.
  preserved_table ltac:(fun HP =>
    simpl; apply Forall_app; split; [exact HP|];
    apply Forall_singleton; by eapply Application_decode_EntriesCount).
Qed.

(** C6: in the model [Unmarshal] returns for a document when no mutator is
    given, every client has an entries count of 1, whatever the document
    holds. *)
Theorem decoded_EntriesCount `{Library} doc s app stream c :
  Unmarshal doc [] = Some (Ok s) →
  app ∈ Stats.Applications s →
  stream ∈ Application.Streams app →
  c ∈ Stream.Clients stream →
  Client.EntriesCount c = 1.
Proof.
  unfold Unmarshal, decodeDocument. intros Hdoc Happ Hst Hc.
  destruct doc as [text|local body]; [done|].
  destruct (Stats.UnmarshalXML body NewDecoder) as [[s0 d0]|e] eqn:Hdec; [|done].
  simpl in Hdoc. simplify_eq.
  apply Stats_UnmarshalXML_EntriesCount in Hdec.
  rewrite Forall_forall in Hdec. specialize (Hdec app Happ).
  rewrite Forall_forall in Hdec. specialize (Hdec stream Hst).
  rewrite Forall_forall in Hdec. by apply Hdec.
Qed.

Lemma decoded_EntriesCount_witness :
  @Unmarshal plainLibrary twoClientsDocument [] = Some (Ok twoClientsStats) ∧
  Client.EntriesCount (Client.mk "51" "" 0 "" "" "" 0 0 0 true false 1) = 1.
Proof.
  split; [reflexivity|].
  apply (@decoded_EntriesCount plainLibrary twoClientsDocument twoClientsStats
           (Application.mk "live" [twoClientsStream]) twoClientsStream).
  - reflexivity.
  - by left.
  - by left.
  - by left.
Defined.

(** ** Further properties *)

(** The mutator of [WithStreamMapper] returns no error exactly when in every
    application the streams get pairwise distinct names, and it then leaves
    the [Stats] with every stream renamed and nothing else changed. *)
Theorem WithStreamMapper_renames mapper s s' :
  WithStreamMapper mapper s = Some (s', None) ↔
  Forall (distinctNames mapper) (Stats.Applications s) ∧
  s' = Stats.set_Applications (renameStreams mapper <$> Stats.Applications s) s.
Proof.
  unfold WithStreamMapper.
  destruct (mapApplications mapper (Stats.Applications s)) as [apps err] eqn:E.
  split.
  - intros [= <- ->]. apply mapApplications_ok in E as [Hall ->]. by split.
  - intros [Hall ->].
    assert (mapApplications mapper (Stats.Applications s)
            = (renameStreams mapper <$> Stats.Applications s, None)) as E'
      by (by apply mapApplications_ok).
    rewrite E in E'. by simplify_eq.
Qed.

Lemma Boolean_UnmarshalXML_text_witness :
  Boolean_UnmarshalXML [CharData "yes"; CharData " or no"] NewDecoder
    = Ok (true, NewDecoder).
Proof.
  apply Boolean_UnmarshalXML_text.
  repeat constructor; by eexists.
Defined.

(** The mutator of [WithClientMapper] cannot fail: it neither panics nor
    returns an error, and leaves the clients of every stream merged by
    identifier. *)
Theorem WithClientMapper_total mapper s :
  ∃ s',
    WithClientMapper mapper s = Some (s', None) ∧
    s' = Stats.set_Applications (mergeStreams mapper <$> Stats.Applications s) s.
Proof. eexists. split; [apply WithClientMapper_spec|done]. Qed.

(** *** [Add] as an operation *)

Lemma ltb_max x y : (if x <? y then y else x) = Z.max x y.
Proof. destruct (Z.ltb_spec x y); lia. Qed.

(** [Add] is associative: however the clients of one identifier are
    grouped, folding them in encounter order gives the same client. *)
Theorem Add_assoc a b c :
  Client.Add (Client.Add a b) c = Client.Add a (Client.Add b c).
Proof.
  unfold Client.Add. cbn [Client.ID Client.Address Client.Uptime Client.FlashVersion
    Client.PageURL Client.SWFURL Client.DroppedFrames Client.AVSync Client.Timestamp
    Client.Active Client.Publishing Client.EntriesCount].
  f_equal.
  - rewrite !ltb_max. lia.
  - unfold add64. by rewrite wrap64_add_l, wrap64_add_r, Z.add_assoc.
  - rewrite !ltb_max. lia.
  - by rewrite orb_assoc.
  - by rewrite orb_assoc.
  - unfold add64. by rewrite wrap64_add_l, wrap64_add_r, Z.add_assoc.
Qed.

(** *** The identifiers the client mapper leaves *)

Lemma fmap_fixed_on {A} (f : A → A) (l : list A) :
  (∀ x, x ∈ l → f x = x) → f <$> l = l.
Proof.
  induction l as [|x l IH]; intros Hf; [done|].
  rewrite fmap_cons, Hf, IH; [done| |by left].
  intros y Hy. apply Hf. by right.
Qed.

Lemma mergeGroup_ID id cs :
  id ∈ Client.ID <$> cs → Client.ID (mergeGroup (group id cs)) = id.
Proof.
  intros Hin. destruct (group id cs) as [|first rest] eqn:Hg.
  { by apply group_not_nil in Hin. }
  simpl. rewrite (foldl_Add_first Client.ID) by done.
  assert (first ∈ group id cs) as Hf by (rewrite Hg; by left).
  by apply list_elem_of_filter in Hf as [? _].
Qed.

Lemma mergeByID_IDs cs : Client.ID <$> mergeByID cs = firstSeen (Client.ID <$> cs).
Proof.
  unfold mergeByID. rewrite <- list_fmap_compose.
  apply fmap_fixed_on. intros id Hid. simpl.
  apply mergeGroup_ID. by apply elem_of_firstSeen.
Qed.

Lemma length_firstSeen_le l : (length (firstSeen l) ≤ length l)%nat.
Proof.
  induction l as [|x l IH]; simpl; [done|].
  pose proof (length_filter (λ y, y ≠ x) (firstSeen l)). lia.
Qed.

(** In every stream the mutator of [WithClientMapper] leaves clients with
    pairwise distinct identifiers: exactly the identifiers the mapper gave
    to the clients of the stream, and never more clients than there were. *)
Theorem WithClientMapper_identifiers mapper (s : Stats.t) (i j : nat) app stream :
  Stats.Applications s !! i = Some app →
  Application.Streams app !! j = Some stream →
  ∃ s' app' stream',
    WithClientMapper mapper s = Some (s', None) ∧
    Stats.Applications s' !! i = Some app' ∧
    Application.Streams app' !! j = Some stream' ∧
    NoDup (Client.ID <$> Stream.Clients stream') ∧
    (∀ id, id ∈ Client.ID <$> Stream.Clients stream' ↔
           ∃ c, c ∈ Stream.Clients stream ∧
                id = mapper (Stream.Name stream) (Client.ID c)) ∧
    (length (Stream.Clients stream') ≤ length (Stream.Clients stream))%nat.
Proof.
  intros Hi Hj.
  destruct (lookup_mergeClients mapper s i j app stream Hi Hj)
    as (s' & app' & stream' & Hs & Hi' & Hj' & Hc).
  exists s', app', stream'. split_and!; [done..| | |]; rewrite Hc.
  - rewrite mergeByID_IDs. apply NoDup_firstSeen.
  - intros id. rewrite mergeByID_IDs, elem_of_firstSeen, <- list_fmap_compose.
    rewrite list_elem_of_fmap. naive_solver.
  - rewrite length_mergeByID.
    etrans; [apply length_firstSeen_le|]. by rewrite !length_fmap.
Qed.

Lemma WithClientMapper_identifiers_witness :
  ∃ s' app' stream',
    WithClientMapper combineSums (testClients 1 3) = Some (s', None) ∧
    Stats.Applications s' !! 0%nat = Some app' ∧
    Application.Streams app' !! 0%nat = Some stream' ∧
    NoDup (Client.ID <$> Stream.Clients stream').
Proof.
  destruct (WithClientMapper_identifiers combineSums (testClients 1 3) 0 0
              (Application.mk ""
                 [Stream.set_NumClients 3
                    (Stream.set_Clients [sumA 1; otherA 1; sumB 1]
                       (streamNamed "stream"))])
              (Stream.set_NumClients 3
                 (Stream.set_Clients [sumA 1; otherA 1; sumB 1]
                    (streamNamed "stream")))
              eq_refl eq_refl)
    as (s' & app' & stream' & H1 & H2 & H3 & H4 & _).
  exists s', app', stream'. exact (conj H1 (conj H2 (conj H3 H4))).
Defined.

(** *** A mapper without collisions *)

Lemma mergeByID_NoDup cs : NoDup (Client.ID <$> cs) → mergeByID cs = cs.
Proof.
  induction cs as [|c cs IH] using rev_ind; [done|].
  rewrite fmap_snoc. intros (Hnd & Hn & _)%NoDup_app.
  rewrite mergeByID_snoc_new, IH; [done..|].
  intros Hin. apply (Hn _ Hin). by left.
Qed.

(** When the mapper gives the clients of a stream pairwise distinct
    identifiers, the mutator of [WithClientMapper] only rewrites the
    identifiers: every client stays, in place, with its other fields, its
    entries count among them, as they were. *)
Theorem WithClientMapper_renames mapper (s : Stats.t) (i j : nat) app stream :
  Stats.Applications s !! i = Some app →
  Application.Streams app !! j = Some stream →
  NoDup ((λ c, mapper (Stream.Name stream) (Client.ID c)) <$> Stream.Clients stream) →
  ∃ s' app' stream',
    WithClientMapper mapper s = Some (s', None) ∧
    Stats.Applications s' !! i = Some app' ∧
    Application.Streams app' !! j = Some stream' ∧
    Stream.Clients stream' =
      remap mapper (Stream.Name stream) <$> Stream.Clients stream.
Proof.
  intros Hi Hj Hnd.
  destruct (lookup_mergeClients mapper s i j app stream Hi Hj)
    as (s' & app' & stream' & Hs & Hi' & Hj' & Hc).
  exists s', app', stream'. split_and!; [done..|]. rewrite Hc.
  apply mergeByID_NoDup. by rewrite <- list_fmap_compose.
Qed.

Lemma WithClientMapper_renames_witness :
  ∃ s' app' stream',
    WithClientMapper (λ _ id, String.append "viewer-" id) (testClients 1 3)
      = Some (s', None) ∧
    Stats.Applications s' !! 0%nat = Some app' ∧
    Application.Streams app' !! 0%nat = Some stream' ∧
    Client.ID <$> Stream.Clients stream'
      = ["viewer-sum_a"; "viewer-other_a"; "viewer-sum_b"].
Proof.
  destruct (WithClientMapper_renames (λ _ id, String.append "viewer-" id)
              (testClients 1 3) 0 0
              (Application.mk ""
                 [Stream.set_NumClients 3
                    (Stream.set_Clients [sumA 1; otherA 1; sumB 1]
                       (streamNamed "stream"))])
              (Stream.set_NumClients 3
                 (Stream.set_Clients [sumA 1; otherA 1; sumB 1]
                    (streamNamed "stream")))
              eq_refl eq_refl)
    as (s' & app' & stream' & H1 & H2 & H3 & H4).
  - repeat constructor; set_solver.
  - exists s', app', stream'. split; [exact H1|]. split; [exact H2|].
    split; [exact H3|]. rewrite H4. reflexivity.
Defined.

(** *** Running the client mapper again *)

Lemma remap_fixed mapper stream (cs : list Client.t) :
  Forall (λ c, mapper stream (Client.ID c) = Client.ID c) cs →
  remap mapper stream <$> cs = cs.
Proof.
  induction 1 as [|c cs Hc _ IH]; [done|].
  rewrite fmap_cons, IH. f_equal. unfold remap. rewrite Hc. by destruct c.
Qed.

Lemma mergeClients_again mapper stream :
  (∀ n id, mapper n (mapper n id) = mapper n id) →
  mergeClients mapper (mergeClients mapper stream) = mergeClients mapper stream.
Proof.
  intros Hidem. unfold mergeClients at 1.
  set (merged := mergeClients mapper stream).
  assert (Stream.Name merged = Stream.Name stream) as -> by done.
  assert (Stream.Clients merged
          = mergeByID (remap mapper (Stream.Name stream) <$> Stream.Clients stream))
    as Hc by done.
  rewrite remap_fixed.
  - rewrite mergeByID_NoDup; [by destruct merged|].
    rewrite Hc, mergeByID_IDs. apply NoDup_firstSeen.
  - apply Forall_forall. intros c Hin.
    assert (Client.ID c ∈ Client.ID <$> Stream.Clients merged) as Hid
      by (by apply list_elem_of_fmap_2).
    rewrite Hc, mergeByID_IDs, elem_of_firstSeen, <- list_fmap_compose in Hid.
    apply list_elem_of_fmap in Hid as (c0 & -> & _). simpl. apply Hidem.
Qed.

Lemma mergeStreams_again mapper app :
  (∀ n id, mapper n (mapper n id) = mapper n id) →
  mergeStreams mapper (mergeStreams mapper app) = mergeStreams mapper app.
Proof.
  intros Hidem. destruct app as [n streams].
  unfold mergeStreams, Application.set_Streams.
  cbn [Application.Streams Application.Name].
  f_equal. rewrite <- list_fmap_compose.
  apply list_fmap_ext. intros k stream _. simpl. by apply mergeClients_again.
Qed.

(** With a mapper that maps its own results to themselves, running the
    mutator of [WithClientMapper] on what it left changes nothing: no client
    is merged or counted a second time. *)
Theorem WithClientMapper_again mapper s s' :
  (∀ n id, mapper n (mapper n id) = mapper n id) →
  WithClientMapper mapper s = Some (s', None) →
  WithClientMapper mapper s' = Some (s', None).
Proof.
  intros Hidem. rewrite (WithClientMapper_spec mapper s). intros [= <-].
  rewrite WithClientMapper_spec. do 2 f_equal.
  cbn [Stats.Applications Stats.set_Applications].
  rewrite <- list_fmap_compose.
  rewrite (list_fmap_ext (mergeStreams mapper ∘ mergeStreams mapper)
             (mergeStreams mapper) (Stats.Applications s))
    by (intros k app _; simpl; by apply mergeStreams_again).
  by destruct s.
Qed.

Lemma WithClientMapper_again_witness :
  ∃ s', WithClientMapper combineSums (testClients 1 3) = Some (s', None) ∧
        WithClientMapper combineSums s' = Some (s', None).
Proof.
  eexists. split; [reflexivity|].
  apply (WithClientMapper_again combineSums (testClients 1 3)); [|reflexivity].
  intros n id. unfold combineSums.
  repeat case_bool_decide; naive_solver.
Defined.

(** *** Sums and flags over a stream *)

Lemma mergeByID_sum_int (proj : Client.t → Z) cs :
  (∀ a c, proj (Client.Add a c) = add64 (proj a) (proj c)) →
  wrap64 (sumZ (proj <$> mergeByID cs)) = wrap64 (sumZ (proj <$> cs)).
Proof.
  intros Hadd. induction cs as [|c cs IH] using rev_ind; [done|].
  assert (sumZ [proj c] = proj c) as Hone by (unfold sumZ; simpl; lia).
  rewrite (fmap_snoc _ cs), (sumZ_app _ [_]), Hone.
  destruct (decide (Client.ID c ∈ Client.ID <$> cs)) as [Hin|Hn].
  - apply elem_of_firstSeen, list_elem_of_lookup_1 in Hin as [i Hi].
    rewrite (mergeByID_snoc_dup cs c i Hi).
    assert (mergeByID cs !! i = Some (mergeGroup (group (Client.ID c) cs))) as Hacc
      by (by rewrite lookup_mergeByID, Hi).
    set (acc := mergeGroup (group (Client.ID c) cs)) in *.
    rewrite list_fmap_insert, (sumZ_insert _ i (proj acc))
      by (by rewrite list_lookup_fmap, Hacc).
    rewrite Hadd. unfold add64. rewrite wrap64_add_r.
    replace (sumZ (proj <$> mergeByID cs) - proj acc + (proj acc + proj c))
      with (sumZ (proj <$> mergeByID cs) + proj c) by lia.
    by apply wrap64_add_congr.
  - rewrite (mergeByID_snoc_new cs c Hn), fmap_snoc, sumZ_app, Hone.
    by apply wrap64_add_congr.
Qed.

Lemma mergeByID_sum_exact (proj : Client.t → Z) cs :
  (∀ a c, proj (Client.Add a c) = add64 (proj a) (proj c)) →
  Forall (λ c, 0 ≤ proj c) cs →
  sumZ (proj <$> cs) ≤ MaxInt64 →
  Forall (λ c, 0 ≤ proj c) (mergeByID cs) ∧
  sumZ (proj <$> mergeByID cs) = sumZ (proj <$> cs).
Proof.
  intros Hadd.
  induction cs as [|c cs IH] using rev_ind; [by split; [constructor|]|].
  rewrite Forall_app, Forall_singleton, fmap_snoc, sumZ_app. intros [Hcs Hc] Hsum.
  assert (sumZ [proj c] = proj c) as Hone by (unfold sumZ; simpl; lia).
  rewrite Hone in *.
  destruct IH as [IH1 IH2]; [done|lia|].
  destruct (decide (Client.ID c ∈ Client.ID <$> cs)) as [Hin|Hn].
  - apply elem_of_firstSeen, list_elem_of_lookup_1 in Hin as [i Hi].
    rewrite (mergeByID_snoc_dup cs c i Hi).
    assert (mergeByID cs !! i = Some (mergeGroup (group (Client.ID c) cs))) as Hacc
      by (by rewrite lookup_mergeByID, Hi).
    set (acc := mergeGroup (group (Client.ID c) cs)) in *.
    assert (0 ≤ proj acc ≤ sumZ (proj <$> mergeByID cs)) as Hle.
    { apply (sumZ_lookup_le _ i).
      - by apply Forall_fmap.
      - by rewrite list_lookup_fmap, Hacc. }
    assert (proj (Client.Add acc c) = proj acc + proj c) as Hsumc.
    { rewrite Hadd. apply wrap64_id. unfold inInt64, MinInt64, MaxInt64 in *. lia. }
    split.
    + apply Forall_insert; [done|]. rewrite Hsumc. lia.
    + rewrite list_fmap_insert, (sumZ_insert _ i (proj acc))
        by (by rewrite list_lookup_fmap, Hacc).
      rewrite Hsumc. lia.
  - rewrite (mergeByID_snoc_new cs c Hn). split.
    + apply Forall_app. split; [done|]. by apply Forall_singleton.
    + rewrite fmap_snoc, sumZ_app, Hone. lia.
Qed.

(** The mutator of [WithClientMapper] keeps the dropped frames of a stream
    as a whole: the sum over its clients is the same before and after, in
    [int] arithmetic always, and as a sum of integers when no client has a
    negative count and the sum fits an [int]. *)
Theorem WithClientMapper_DroppedFrames mapper (s : Stats.t) (i j : nat) app stream :
  Stats.Applications s !! i = Some app →
  Application.Streams app !! j = Some stream →
  ∃ s' app' stream',
    WithClientMapper mapper s = Some (s', None) ∧
    Stats.Applications s' !! i = Some app' ∧
    Application.Streams app' !! j = Some stream' ∧
    wrap64 (sumZ (Client.DroppedFrames <$> Stream.Clients stream'))
      = wrap64 (sumZ (Client.DroppedFrames <$> Stream.Clients stream)) ∧
    (Forall (λ c, 0 ≤ Client.DroppedFrames c) (Stream.Clients stream) →
     sumZ (Client.DroppedFrames <$> Stream.Clients stream) ≤ MaxInt64 →
     sumZ (Client.DroppedFrames <$> Stream.Clients stream')
       = sumZ (Client.DroppedFrames <$> Stream.Clients stream)).
Proof.
  intros Hi Hj.
  destruct (lookup_mergeClients mapper s i j app stream Hi Hj)
    as (s' & app' & stream' & Hs & Hi' & Hj' & Hc).
  exists s', app', stream'. split_and!; [done..| |]; rewrite Hc.
  all: set (renamed := remap mapper (Stream.Name stream) <$> Stream.Clients stream).
  all: assert (Client.DroppedFrames <$> renamed
               = Client.DroppedFrames <$> Stream.Clients stream) as Hren
         by (unfold renamed; rewrite <- list_fmap_compose; by apply list_fmap_ext).
  - by rewrite mergeByID_sum_int, Hren.
  - intros Hpos Hsum.
    assert (Forall (λ c, 0 ≤ Client.DroppedFrames c) renamed) as HposR
      by (apply Forall_fmap; by apply (Forall_impl _ _ _ Hpos)).
    assert (sumZ (Client.DroppedFrames <$> renamed) ≤ MaxInt64) as HsumR
      by (by rewrite Hren).
    destruct (mergeByID_sum_exact Client.DroppedFrames renamed
                ltac:(done) HposR HsumR) as [_ Heq].
    by rewrite Heq, Hren.
Qed.

Lemma WithClientMapper_DroppedFrames_witness :
  ∃ s' app' stream',
    WithClientMapper combineSums (testClients 1 3) = Some (s', None) ∧
    Stats.Applications s' !! 0%nat = Some app' ∧
    Application.Streams app' !! 0%nat = Some stream' ∧
    sumZ (Client.DroppedFrames <$> Stream.Clients stream') = 250.
Proof.
  destruct (WithClientMapper_DroppedFrames combineSums (testClients 1 3) 0 0
              (Application.mk ""
                 [Stream.set_NumClients 3
                    (Stream.set_Clients [sumA 1; otherA 1; sumB 1]
                       (streamNamed "stream"))])
              (Stream.set_NumClients 3
                 (Stream.set_Clients [sumA 1; otherA 1; sumB 1]
                    (streamNamed "stream")))
              eq_refl eq_refl)
    as (s' & app' & stream' & H1 & H2 & H3 & _ & H4).
  exists s', app', stream'. split; [exact H1|]. split; [exact H2|].
  split; [exact H3|]. apply H4.
  - repeat constructor; simpl; lia.
  - vm_compute. discriminate.
Defined.

Lemma existsb_insert {A} (f : A → bool) (l : list A) (i : nat) x y b :
  l !! i = Some x → f y = f x || b →
  existsb f (<[i := y]> l) = existsb f l || b.
Proof.
  revert i. induction l as [|z l IH]; intros [|i] Hi Hy; simplify_eq/=.
  - rewrite Hy. by destruct (f x), b, (existsb f l).
  - rewrite (IH i Hi Hy). by rewrite orb_assoc.
Qed.

Lemma mergeByID_existsb (proj : Client.t → bool) cs :
  (∀ a c, proj (Client.Add a c) = proj a || proj c) →
  existsb proj (mergeByID cs) = existsb proj cs.
Proof.
  intros Hor. induction cs as [|c cs IH] using rev_ind; [done|].
  rewrite (existsb_app _ cs). simpl. rewrite orb_false_r.
  destruct (decide (Client.ID c ∈ Client.ID <$> cs)) as [Hin|Hn].
  - apply elem_of_firstSeen, list_elem_of_lookup_1 in Hin as [i Hi].
    rewrite (mergeByID_snoc_dup cs c i Hi).
    rewrite (existsb_insert proj _ i (mergeGroup (group (Client.ID c) cs)) _ (proj c)).
    + by rewrite IH.
    + by rewrite lookup_mergeByID, Hi.
    + apply Hor.
  - rewrite (mergeByID_snoc_new cs c Hn), existsb_app, IH. simpl.
    by rewrite orb_false_r.
Qed.

Lemma existsb_remap mapper stream (cs : list Client.t) (proj : Client.t → bool) :
  (∀ c, proj (remap mapper stream c) = proj c) →
  existsb proj (remap mapper stream <$> cs) = existsb proj cs.
Proof.
  intros Hp. induction cs as [|c cs IH]; [done|].
  rewrite fmap_cons. simpl. by rewrite Hp, IH.
Qed.

Lemma findPublisher_Publishing clients :
  Client.Publishing (findPublisher clients Client.zero)
    = existsb Client.Publishing clients.
Proof.
  induction clients as [|c clients IH]; [done|]. simpl.
  by destruct (Client.Publishing c) eqn:Hc.
Qed.

Lemma findPublisher_elem clients :
  existsb Client.Publishing clients = true →
  findPublisher clients Client.zero ∈ clients.
Proof.
  induction clients as [|c clients IH]; [done|]. simpl.
  destruct (Client.Publishing c) eqn:Hc; [by left|].
  intros H. right. by apply IH.
Qed.

(** The publisher [Collect] reports after the mutator of [WithClientMapper]
    has run: the stream has a publisher, and an active client, exactly when
    it had one before, and the publisher reported carries the new
    identifier of a client that was publishing. *)
Theorem WithClientMapper_publisher mapper (s : Stats.t) (i j : nat) app stream :
  Stats.Applications s !! i = Some app →
  Application.Streams app !! j = Some stream →
  ∃ s' app' stream',
    WithClientMapper mapper s = Some (s', None) ∧
    Stats.Applications s' !! i = Some app' ∧
    Application.Streams app' !! j = Some stream' ∧
    existsb Client.Active (Stream.Clients stream')
      = existsb Client.Active (Stream.Clients stream) ∧
    Client.Publishing (findPublisher (Stream.Clients stream') Client.zero)
      = existsb Client.Publishing (Stream.Clients stream) ∧
    (existsb Client.Publishing (Stream.Clients stream) = true →
     ∃ c, c ∈ Stream.Clients stream ∧ Client.Publishing c = true ∧
          Client.ID (findPublisher (Stream.Clients stream') Client.zero)
            = mapper (Stream.Name stream) (Client.ID c)).
Proof.
  intros Hi Hj.
  destruct (lookup_mergeClients mapper s i j app stream Hi Hj)
    as (s' & app' & stream' & Hs & Hi' & Hj' & Hc).
  exists s', app', stream'. split_and!; [done..| | |]; rewrite Hc.
  all: set (renamed := remap mapper (Stream.Name stream) <$> Stream.Clients stream).
  all: pose proof (existsb_remap mapper (Stream.Name stream) (Stream.Clients stream))
         as Hren; fold renamed in Hren.
  - by rewrite mergeByID_existsb, Hren.
  - by rewrite findPublisher_Publishing, mergeByID_existsb, Hren.
  - intros Hpub.
    assert (existsb Client.Publishing (mergeByID renamed) = true) as Hpub'
      by (by rewrite mergeByID_existsb, Hren).
    pose proof (findPublisher_elem _ Hpub') as Hin.
    pose proof (findPublisher_Publishing (mergeByID renamed)) as Hp.
    rewrite Hpub' in Hp.
    set (p := findPublisher (mergeByID renamed) Client.zero) in *.
    apply list_elem_of_fmap in Hin as (id & Hpid & Hid).
    apply (proj1 (elem_of_firstSeen _ _)) in Hid.
    assert (Client.ID p = id) as Hidp by (rewrite Hpid; by apply mergeGroup_ID).
    destruct (group id renamed) as [|first rest] eqn:Hg.
    { by apply group_not_nil in Hid. }
    pose proof (foldl_Add_mergedFields first rest) as Hm.
    simpl in Hpid. rewrite <- Hpid in Hm.
    rewrite (merged_Publishing _ _ _ Hm) in Hp.
    apply existsb_exists in Hp as (c' & Hc'%list_elem_of_In & Hc'p).
    rewrite <- Hg in Hc'. apply list_elem_of_filter in Hc' as [Hc'id Hc'in].
    apply list_elem_of_fmap in Hc'in as (c & -> & Hcin).
    exists c. split_and!; [done|done|]. by rewrite Hidp, <- Hc'id.
Qed.

Lemma WithClientMapper_publisher_witness :
  ∃ s' app' stream',
    WithClientMapper (λ _ _, "all") (statsOf [Application.mk "app" [publisherExample]])
      = Some (s', None) ∧
    Stats.Applications s' !! 0%nat = Some app' ∧
    Application.Streams app' !! 0%nat = Some stream' ∧
    Client.Publishing (findPublisher (Stream.Clients stream') Client.zero) = true.
Proof.
  destruct (WithClientMapper_publisher (λ _ _, "all")
              (statsOf [Application.mk "app" [publisherExample]]) 0 0
              (Application.mk "app" [publisherExample]) publisherExample
              eq_refl eq_refl)
    as (s' & app' & stream' & H1 & H2 & H3 & _ & H4 & _).
  exists s', app', stream'. split; [exact H1|]. split; [exact H2|].
  split; [exact H3|]. rewrite H4. reflexivity.
Defined.

(** *** Stream mappers one after the other *)

Lemma WithStreamMapper_None mapper s s' :
  WithStreamMapper mapper s = Some (s', None) ↔
  Forall (distinctNames mapper) (Stats.Applications s) ∧
  s' = Stats.set_Applications (renameStreams mapper <$> Stats.Applications s) s.
Proof.
  unfold WithStreamMapper.
  destruct (mapApplications mapper (Stats.Applications s)) as [apps err] eqn:E.
  split.
  - intros [= <- ->]. apply mapApplications_ok in E as [Hall ->]. by split.
  - intros [Hall ->].
    assert (mapApplications mapper (Stats.Applications s)
            = (renameStreams mapper <$> Stats.Applications s, None)) as E'
      by (by apply mapApplications_ok).
    rewrite E in E'. by simplify_eq.
Qed.

Lemma WithStreamMapper_Some mapper s : ∃ s' err, WithStreamMapper mapper s = Some (s', err).
Proof.
  unfold WithStreamMapper.
  destruct (mapApplications mapper (Stats.Applications s)) as [apps err]. eauto.
Qed.

Lemma newName_renameStream f g stream :
  newName g (renameStream f stream) = newName (g ∘ f) stream.
Proof. done. Qed.

Lemma renameStream_compose f g stream :
  renameStream g (renameStream f stream) = renameStream (g ∘ f) stream.
Proof. by destruct stream. Qed.

Lemma renameStreams_compose f g app :
  renameStreams g (renameStreams f app) = renameStreams (g ∘ f) app.
Proof.
  destruct app as [n streams]. unfold renameStreams, Application.set_Streams.
  cbn [Application.Name Application.Streams]. f_equal.
  rewrite <- list_fmap_compose. apply list_fmap_ext.
  intros k stream _. apply renameStream_compose.
Qed.

Lemma distinctNames_compose f g app :
  distinctNames (g ∘ f) app ↔
  distinctNames f app ∧ distinctNames g (renameStreams f app).
Proof.
  unfold distinctNames.
  assert (newName g <$> Application.Streams (renameStreams f app)
          = newName (g ∘ f) <$> Application.Streams app) as ->.
  { destruct app as [n streams]. simpl. rewrite <- list_fmap_compose.
    by apply list_fmap_ext. }
  split; [|by intros [_ ?]]. intros Hnd. split; [|done].
  assert (newName (g ∘ f) <$> Application.Streams app
          = g <$> (newName f <$> Application.Streams app)) as Heq
    by (rewrite <- list_fmap_compose; by apply list_fmap_ext).
  rewrite Heq in Hnd. by apply NoDup_fmap_1 in Hnd.
Qed.

(** Two stream mappers run one after the other by [Unmarshal] succeed
    exactly when the stream mapper of the composed function does, and leave
    the same [Stats]. *)
Theorem WithStreamMapper_compose f g s s2 :
  applyMutators [WithStreamMapper f; WithStreamMapper g] s = Some (Ok s2) ↔
  WithStreamMapper (g ∘ f) s = Some (s2, None).
Proof.
  rewrite WithStreamMapper_None. cbn [applyMutators].
  destruct (WithStreamMapper_Some f s) as (s1 & e1 & H1). rewrite H1.
  assert (∀ apps, Forall (distinctNames (g ∘ f)) apps ↔
                  Forall (distinctNames f) apps ∧
                  Forall (distinctNames g) (renameStreams f <$> apps)) as Hall.
  { intros apps. rewrite Forall_fmap, <- Forall_and. apply Forall_proper; [|done].
    intros app. simpl. apply distinctNames_compose. }
  assert (∀ apps : list Application.t,
            renameStreams g <$> (renameStreams f <$> apps)
                  = renameStreams (g ∘ f) <$> apps) as Hren.
  { intros apps. rewrite <- list_fmap_compose. apply list_fmap_ext.
    intros k app _. apply renameStreams_compose. }
  destruct e1 as [e1|].
  - split; [done|]. intros [[Hf _]%Hall _].
    assert (WithStreamMapper f s
            = Some (Stats.set_Applications
                      (renameStreams f <$> Stats.Applications s) s, None)) as H1'
      by (by apply WithStreamMapper_None).
    congruence.
  - apply WithStreamMapper_None in H1 as [Hf ->].
    destruct (WithStreamMapper_Some g
                (Stats.set_Applications (renameStreams f <$> Stats.Applications s) s))
      as (s2' & e2 & H2).
    rewrite H2. destruct e2 as [e2|].
    + split; [done|]. intros [[_ Hg]%Hall _].
      assert (WithStreamMapper g
                (Stats.set_Applications (renameStreams f <$> Stats.Applications s) s)
              = Some (Stats.set_Applications
                        (renameStreams g <$> (renameStreams f <$> Stats.Applications s))
                        (Stats.set_Applications
                           (renameStreams f <$> Stats.Applications s) s), None)) as H2'.
      { apply WithStreamMapper_None. split; [by destruct s|by destruct s]. }
      congruence.
    + apply WithStreamMapper_None in H2 as [Hg ->].
      assert (Stats.Applications
                (Stats.set_Applications (renameStreams f <$> Stats.Applications s) s)
              = renameStreams f <$> Stats.Applications s) as Happs by (by destruct s).
      rewrite Happs in *. rewrite Hren. split.
      * intros [= <-]. split; [by apply Hall|by destruct s].
      * intros [_ ->]. by destruct s.
Qed.

(** *** The pipeline of [Unmarshal] *)

Lemma applyMutators_app muts1 muts2 s :
  applyMutators (muts1 ++ muts2) s =
  match applyMutators muts1 s with
  | Some (Ok s') => applyMutators muts2 s'
  | other => other
  end.
Proof.
  revert s. induction muts1 as [|mut muts1 IH]; intros s; [done|]. simpl.
  destruct (mut s) as [[s' [err|]]|]; [done| |done]. apply IH.
Qed.

(** [Unmarshal] applies the mutators in the order given: mutators given
    after others run on the [Stats] those left, and when the decoding or one
    of the earlier mutators fails no later mutator runs and that failure is
    what is returned. *)
Theorem Unmarshal_pipeline `{Library} doc muts1 muts2 :
  Unmarshal doc (muts1 ++ muts2) =
  match Unmarshal doc muts1 with
  | Some (Ok s) => applyMutators muts2 s
  | other => other
  end.
Proof.
  unfold Unmarshal. destruct (decodeDocument doc) as [s|e]; [|done].
  apply applyMutators_app.
Qed.

(** *** The stream mapper and the client mapper together *)

Lemma distinctNames_mergeStreams f g app :
  distinctNames f (mergeStreams g app) ↔ distinctNames f app.
Proof.
  unfold distinctNames.
  assert (newName f <$> Application.Streams (mergeStreams g app)
          = newName f <$> Application.Streams app) as ->; [|done].
  destruct app as [n streams]. simpl. rewrite <- list_fmap_compose.
  by apply list_fmap_ext.
Qed.

(** The order of the two mappers matters to the client mapper only: run
    after the stream mapper it is called with the new name of the stream,
    run before it with the name the stream had.  Either way the stream ends
    with the new name and its clients merged. *)
Theorem mappers_order f g (s : Stats.t) (i j : nat) app stream :
  Stats.Applications s !! i = Some app →
  Application.Streams app !! j = Some stream →
  Forall (distinctNames f) (Stats.Applications s) →
  ∃ s1 app1 stream1 s2 app2 stream2,
    applyMutators [WithStreamMapper f; WithClientMapper g] s = Some (Ok s1) ∧
    Stats.Applications s1 !! i = Some app1 ∧
    Application.Streams app1 !! j = Some stream1 ∧
    Stream.Name stream1 = f (Stream.Name stream) ∧
    Stream.Clients stream1
      = mergeByID (remap g (f (Stream.Name stream)) <$> Stream.Clients stream) ∧
    applyMutators [WithClientMapper g; WithStreamMapper f] s = Some (Ok s2) ∧
    Stats.Applications s2 !! i = Some app2 ∧
    Application.Streams app2 !! j = Some stream2 ∧
    Stream.Name stream2 = f (Stream.Name stream) ∧
    Stream.Clients stream2
      = mergeByID (remap g (Stream.Name stream) <$> Stream.Clients stream).
Proof.
  intros Hi Hj Hall. cbn [applyMutators].
  assert (WithStreamMapper f s
          = Some (Stats.set_Applications
                    (renameStreams f <$> Stats.Applications s) s, None)) as ->
    by (by apply WithStreamMapper_None).
  rewrite !WithClientMapper_spec.
  assert (WithStreamMapper f
            (Stats.set_Applications (mergeStreams g <$> Stats.Applications s) s)
          = Some (Stats.set_Applications
                    (renameStreams f <$> (mergeStreams g <$> Stats.Applications s))
                    (Stats.set_Applications
                       (mergeStreams g <$> Stats.Applications s) s), None)) as ->.
  { apply WithStreamMapper_None. split; [|by destruct s].
    assert (Stats.Applications
              (Stats.set_Applications (mergeStreams g <$> Stats.Applications s) s)
            = mergeStreams g <$> Stats.Applications s) as -> by (by destruct s).
    apply Forall_fmap. apply (Forall_impl _ _ _ Hall).
    intros a Ha. simpl. by apply distinctNames_mergeStreams. }
  eexists _, (mergeStreams g (renameStreams f app)),
    (mergeClients g (renameStream f stream)), _,
    (renameStreams f (mergeStreams g app)), (renameStream f (mergeClients g stream)).
  split_and!; try done.
  - destruct s. simpl in *. by rewrite !list_lookup_fmap, Hi.
  - destruct app. simpl in *. by rewrite !list_lookup_fmap, Hj.
  - destruct s. simpl in *. by rewrite !list_lookup_fmap, Hi.
  - destruct app. simpl in *. by rewrite !list_lookup_fmap, Hj.
Qed.

Lemma mappers_order_witness :
  ∃ s1 s2,
    applyMutators [WithStreamMapper (λ _, "renamed");
                   WithClientMapper (λ n id, String.append n id)]
      (testClients 1 3) = Some (Ok s1) ∧
    applyMutators [WithClientMapper (λ n id, String.append n id);
                   WithStreamMapper (λ _, "renamed")]
      (testClients 1 3) = Some (Ok s2) ∧
    s1 ≠ s2.
Proof.
  destruct (mappers_order (λ _, "renamed") (λ n id, String.append n id)
              (testClients 1 3) 0 0
              (Application.mk ""
                 [Stream.set_NumClients 3
                    (Stream.set_Clients [sumA 1; otherA 1; sumB 1]
                       (streamNamed "stream"))])
              (Stream.set_NumClients 3
                 (Stream.set_Clients [sumA 1; otherA 1; sumB 1]
                    (streamNamed "stream")))
              eq_refl eq_refl)
    as (s1 & app1 & st1 & s2 & app2 & st2 & H1 & A1 & B1 & _ & C1 & H2 & A2 & B2 & _ & C2).
  - repeat constructor; set_solver.
  - exists s1, s2. split; [exact H1|]. split; [exact H2|].
    intros ->. rewrite A1 in A2. injection A2 as ->.
    rewrite B1 in B2. injection B2 as ->.
    rewrite C1 in C2. discriminate C2.
Defined.

(** *** Elements no field names *)





(** *** Slices *)
















(** *** Durations and the build time *)










(** *** The metrics of the renamed streams *)

Lemma streamMetrics_labels app stream m :
  m ∈ streamMetrics app stream →
  take 2 (labelValues m) = [Application.Name app; Stream.Name stream].
Proof.
  unfold streamMetrics. intros Hm.
  repeat (apply elem_of_cons in Hm as [->|Hm]; [done|]).
  by apply elem_of_nil in Hm.
Qed.

Lemma NoDup_streamMetrics app stream : NoDup (streamMetrics app stream).
Proof.
  unfold streamMetrics.
  repeat (apply NoDup_cons; split;
          [rewrite ?not_elem_of_cons; split_and?; [discriminate..|apply not_elem_of_nil]|]).
  apply NoDup_nil_2.
Qed.

Lemma NoDup_stream_metrics app streams :
  NoDup (Stream.Name <$> streams) →
  NoDup (concat (streamMetrics app <$> streams)).
Proof.
  induction streams as [|stream streams IH]; [intros _; apply NoDup_nil_2|].
  rewrite fmap_cons, NoDup_cons. intros [Hnew Hrest].
  rewrite fmap_cons. cbn [concat]. apply NoDup_app. split_and!.
  - apply NoDup_streamMetrics.
  - intros m Hm (ms & Hin & (other & -> & Hother)%list_elem_of_fmap)%elem_of_concat.
    apply streamMetrics_labels in Hm, Hin. rewrite Hm in Hin.
    injection Hin as Hname. apply Hnew. rewrite Hname.
    by apply list_elem_of_fmap_2.
  - by apply IH.
Qed.

(** What the collision check is for: after the stream mapper has run without
    an error, the metrics [Collect] sends for the streams of one application
    are pairwise different (no two share the metric name and the label
    values), so none is a duplicate of another. *)
Theorem WithStreamMapper_distinct_metrics mapper s s' app :
  WithStreamMapper mapper s = Some (s', None) →
  app ∈ Stats.Applications s' →
  NoDup (concat (streamMetrics app <$> Application.Streams app)).
Proof.
  intros [Hall ->]%WithStreamMapper_None.
  unfold Stats.set_Applications. cbn [Stats.Applications].
  intros (app0 & -> & Hin)%list_elem_of_fmap.
  rewrite Forall_forall in Hall. specialize (Hall app0 Hin).
  apply NoDup_stream_metrics. unfold distinctNames in Hall.
  destruct app0 as [n streams]. cbn in *.
  rewrite <- list_fmap_compose.
  by rewrite (list_fmap_ext (Stream.Name ∘ renameStream mapper) (newName mapper)
                streams) by done.
Qed.

Lemma WithStreamMapper_distinct_metrics_witness :
  ∃ s' app,
    WithStreamMapper (λ n, String.append "cam_" n) twoApplications = Some (s', None) ∧
    Stats.Applications s' !! 1%nat = Some app ∧
    length (concat (streamMetrics app <$> Application.Streams app)) = 14%nat ∧
    NoDup (concat (streamMetrics app <$> Application.Streams app)).
Proof.
  eexists _, _. split; [vm_compute; reflexivity|]. split; [reflexivity|].
  split; [reflexivity|].
  apply (WithStreamMapper_distinct_metrics (λ n, String.append "cam_" n)
           twoApplications _ _ eq_refl).
  do 1 right. by left.
Defined.
